(** * A relay between a browser audio socket and a generative streaming service

    Shallow embedding of [main.py] (the session relay, the order sink and the
    order listing) and of [database.py] (the [orders] table), followed by the
    properties of the relay that the design document states.

    Conventions of the embedding.
    - A Python value that came out of [json.loads] is a term of [json].
    - Coroutines are functions in the monad [M]: a world (the events performed
      so far and the content of the [orders] table) goes in, a result or a
      raised exception comes out together with the new world.  Effects that
      were performed before an exception was raised stay performed.
    - Everything the code cannot decide itself (does a send succeed, does the
      commit succeed, what time is it, what does the peer send) is read from an
      environment [Env], as a function of the events performed so far. *)

From Stdlib Require Import String Ascii List ZArith Lia Bool Permutation Sorted.
From Stdlib Require Import DecimalString.
From Stdlib Require Import SpecFloat.

Import ListNotations.

Set Warnings "-register-all".

Local Open Scope string_scope.
Local Open Scope list_scope.
Local Open Scope Z_scope.

(* ===================================================================== *)
(** ** Python values and the builtins the relay applies to them          *)
(* ===================================================================== *)

Module Py.

(** A Python [float] is an IEEE binary64 number. *)
Definition float := spec_float.
Definition prec : Z := 53.
Definition emax : Z := 1024.

(** What [json.loads] returns: [None], [bool], [int], [float], [str],
    [list], [dict] (insertion ordered, looked up by key). *)
Inductive json : Type :=
| JNull
| JBool (b : bool)
| JInt (z : Z)
| JFloat (f : float)
| JStr (s : string)
| JArr (items : list json)
| JObj (fields : list (string * json)).

(** The exceptions that the modelled code can meet. All of them derive from
    [Exception], so every [except Exception] clause catches them. *)
Inductive exn : Type :=
| JSONDecodeError
| AttributeError
| KeyError (key : string)
| TypeError
| ValueError
| OverflowError
| TransportError (detail : string)
| DatabaseError (detail : string)
| OSError (detail : string).

Inductive result (A : Type) : Type :=
| Ok (a : A)
| Raise (e : exn).
Arguments Ok {A} a.
Arguments Raise {A} e.

(** [d[key]] on the fields of a [dict]. *)
Fixpoint lookup (key : string) (fields : list (string * json)) : option json :=
  match fields with
  | [] => None
  | (k, v) :: rest => if String.eqb key k then Some v else lookup key rest
  end.

Fixpoint is_substring (needle hay : string) : bool :=
  String.prefix needle hay ||
  match hay with
  | EmptyString => false
  | String _ rest => is_substring needle rest
  end.

(** [value == s] for a string literal [s]: only a [str] can be equal. *)
Definition eq_str (value : json) (s : string) : bool :=
  match value with
  | JStr t => String.eqb t s
  | _ => false
  end.

(** [key in container] for a string literal [key]. *)
Definition contains (key : string) (container : json) : result bool :=
  match container with
  | JObj fields => Ok (match lookup key fields with Some _ => true | None => false end)
  | JArr items => Ok (existsb (fun v => eq_str v key) items)
  | JStr s => Ok (is_substring key s)
  | JNull | JBool _ | JInt _ | JFloat _ => Raise TypeError
  end.

(** [container[key]] for a string literal [key]. *)
Definition getitem (container : json) (key : string) : result json :=
  match container with
  | JObj fields =>
      match lookup key fields with
      | Some v => Ok v
      | None => Raise (KeyError key)
      end
  | _ => Raise TypeError
  end.

(** [container.get(key, default)]: only a [dict] has the method. *)
Definition get (container : json) (key : string) (default : json) : result json :=
  match container with
  | JObj fields =>
      match lookup key fields with
      | Some v => Ok v
      | None => Ok default
      end
  | _ => Raise AttributeError
  end.

(** What a [for] statement iterates over: the items of a [list], the keys
    of a [dict], the characters of a [str]. *)
Definition iter (container : json) : result (list json) :=
  match container with
  | JArr items => Ok items
  | JObj fields => Ok (map (fun kv => JStr (fst kv)) fields)
  | JStr s => Ok (map (fun c => JStr (String c EmptyString)) (list_ascii_of_string s))
  | JNull | JBool _ | JInt _ | JFloat _ => Raise TypeError
  end.

(** [float(n)] for an [int]: nearest binary64, [OverflowError] beyond it. *)
Definition float_of_Z (z : Z) : result float :=
  match binary_normalize prec emax z 0 false with
  | S754_infinity _ => Raise OverflowError
  | f => Ok f
  end.

(** [int(x)] for a [float]: truncation towards zero. *)
Definition Z_of_float (f : float) : result Z :=
  match f with
  | S754_zero _ => Ok 0
  | S754_infinity _ => Raise OverflowError
  | S754_nan => Raise ValueError
  | S754_finite s m e =>
      let magnitude := if 0 <=? e then Z.shiftl (Zpos m) e
                       else Z.shiftr (Zpos m) (- e) in
      Ok (if s then - magnitude else magnitude)
  end.

(** The two text parsers behind [int(str)] and [float(str)] are Python's
    own; the embedding takes them as given. *)
Record Parsers : Type := {
  int_of_str : string -> option Z;
  float_of_str : string -> option float
}.

Section Conversions.
Variable parsers : Parsers.

(** [int(value)] *)
Definition int (value : json) : result Z :=
    match value with
    | JInt z => Ok z
    | JBool b => Ok (if b then 1 else 0)
    | JFloat f => Z_of_float f
    | JStr s =>
        match int_of_str parsers s with
        | Some z => Ok z
        | None => Raise ValueError
        end
    | JNull | JArr _ | JObj _ => Raise TypeError
    end.

(** [float(value)] *)
Definition to_float (value : json) : result float :=
    match value with
    | JInt z => float_of_Z z
    | JBool b => float_of_Z (if b then 1 else 0)
    | JFloat f => Ok f
    | JStr s =>
        match float_of_str parsers s with
        | Some f => Ok f
        | None => Raise ValueError
        end
    | JNull | JArr _ | JObj _ => Raise TypeError
    end.
End Conversions.


End Py.
Import Py.

(* ===================================================================== *)
(** ** database.py: the [orders] table                                    *)
(* ===================================================================== *)

Module Database.

(** One row of [class Order(Base)] as SQLite holds it: [item] is a TEXT
    cell, [price] a REAL cell; [None] is NULL. *)
Record Order : Type := {
  id : Z;
  item : option string;
  quantity : Z;
  price : option float;
  status : string;
  created_at : Z
}.

Definition Table := list Order.

(** The integer primary key of a new row: one more than the largest. *)
Definition next_id (t : Table) : Z :=
  1 + fold_right (fun o acc => Z.max (id o) acc) 0 t.

(** What the driver can pass as an integer: a signed 64-bit number. *)
Definition in_int64 (z : Z) : bool := (- 2 ^ 63 <=? z) && (z <? 2 ^ 63).

(** An integer as its decimal text. *)
Definition decimal (z : Z) : string := NilZero.string_of_int (Z.to_int z).

(** Binding a Python value to [item = Column(String)]. A [str] is kept,
    [None] is NULL, a number is stored as its text ([bool] being an [int];
    [render] is SQLite's own text form of a real, taken as given, and NaN
    is NULL); an [int] beyond 64 bits and a [list] or [dict] cannot be
    bound. *)
Definition bind_text (render : float -> string) (value : json)
  : result (option string) :=
  match value with
  | JStr s => Ok (Some s)
  | JNull => Ok None
  | JBool b => Ok (Some (if b then "1" else "0"))
  | JInt z => if in_int64 z then Ok (Some (decimal z)) else Raise OverflowError
  | JFloat S754_nan => Ok None
  | JFloat f => Ok (Some (render f))
  | JArr _ | JObj _ => Raise (DatabaseError "Error binding parameter")
  end.

(** Binding an [int] to [quantity = Column(Integer)]. *)
Definition bind_integer (z : Z) : result Z :=
  if in_int64 z then Ok z else Raise OverflowError.

(** Binding a [float] to [price = Column(Float)]: NaN is stored as NULL and
    a zero of either sign reads back as 0.0. *)
Definition bind_real (f : float) : option float :=
  match f with
  | S754_nan => None
  | S754_zero _ => Some (S754_zero false)
  | _ => Some f
  end.

(** [db.add(order); db.commit()] as far as the table goes: the values are
    bound in column order, the row gets its key and the column default
    [created_at = datetime.now()]. *)
Definition insert (render : float -> string) (t : Table)
                  (item : json) (quantity : Z) (price : float)
                  (status : string) (now : Z) : result Table :=
  match bind_text render item with
  | Raise e => Raise e
  | Ok stored_item =>
      match bind_integer quantity with
      | Raise e => Raise e
      | Ok stored_quantity =>
          Ok (t ++ [ {| id := next_id t; item := stored_item;
                        quantity := stored_quantity; price := bind_real price;
                        status := status; created_at := now |} ])
      end
  end.

(** [ORDER BY created_at DESC]: insertion into a list kept newest first. *)
Fixpoint insert_desc (o : Order) (sorted : list Order) : list Order :=
  match sorted with
  | [] => [o]
  | x :: rest =>
      if created_at x <=? created_at o then o :: x :: rest
      else x :: insert_desc o rest
  end.

Definition order_by_created_at_desc (t : Table) : list Order :=
  fold_right insert_desc [] t.

End Database.
Import Database.

(* ===================================================================== *)
(** ** Effects: events, the world, the environment, the monad            *)
(* ===================================================================== *)

Module Effects.

(** The two forwarding tasks of a session. *)
Inductive side : Type := Browser | Gemini.

Definition other (s : side) : side :=
  match s with Browser => Gemini | Gemini => Browser end.

(** The calls to [logger], by the place that makes them. *)
Inductive log_record : Type :=
| LogDatabaseSaved (quantity : Z) (item : json) (price : float)
| LogDbError (e : exn)
| LogMenuMissing
| LogMenuError (e : exn)
| LogConnected
| LogBrowserDisconnected (e : exn)
| LogGeminiDisconnected (e : exn)
| LogSessionEnded (e : exn).

(** The calls that leave the process. A call is recorded when it is made,
    whether it then returns or raises. An upstream frame is recorded as the
    value handed to [json.dumps]. *)
Inductive event : Type :=
| Log (r : log_record)
| Connect
| UpstreamSend (frame : json)
| UpstreamClose
| ClientSend (frame : json)
| ClientClose
| DbCommit (item : json) (quantity : Z) (price : float)
| Cancel (task : side).

Record World : Type := {
  trace : list event;
  orders : Table
}.

(** [menu.json] as the session finds it; [MenuPresent text] carries
    [json.dumps(json.load(f), indent=2)]. *)
Inductive menu_state : Type :=
| MenuAbsent
| MenuUnreadable (e : exn)
| MenuPresent (text : string).

(** A text frame, by what [json.loads] makes of it. *)
Inductive message : Type :=
| NotJson
| Json (value : json).

(** How an [async for] over a socket ends once its frames are consumed: the
    iteration stops, it raises, or no further frame ever arrives. *)
Inductive stream_end : Type :=
| Closed
| Broken (e : exn)
| Silent.

Record stream : Type := {
  frames : list message;
  ending : stream_end
}.

(** Every answer the code gets from outside, as a function of the events
    performed so far; [None] means the call returns, [Some e] that it raises.
    [commit_fault] stands for whatever can go wrong between [get_db] and the
    end of the commit apart from binding the values; [real_as_text] is the
    text SQLite makes of a real. *)
Record Env : Type := {
  parsers : Parsers;
  menu_json : menu_state;
  connect_fault : option exn;
  upstream_send_fault : list event -> option exn;
  client_send_fault : list event -> option exn;
  commit_fault : list event -> option exn;
  real_as_text : float -> string;
  now : list event -> Z
}.

Definition M (A : Type) : Type := World -> result A * World.

Definition ret {A} (a : A) : M A := fun w => (Ok a, w).

Definition raise {A} (e : exn) : M A := fun w => (Raise e, w).

Definition bind {A B} (m : M A) (k : A -> M B) : M B :=
  fun w =>
    match m w with
    | (Ok a, w') => k a w'
    | (Raise e, w') => (Raise e, w')
    end.

(** Run [m] and hand back how it ended; the effects it performed remain. *)
Definition attempt {A} (m : M A) : M (result A) :=
  fun w => let (r, w') := m w in (Ok r, w').

Definition lift {A} (r : result A) : M A := fun w => (r, w).

Definition emit (e : event) : M unit :=
  fun w => (Ok tt, {| trace := trace w ++ [e]; orders := orders w |}).

Definition history : M (list event) := fun w => (Ok (trace w), w).

Declare Scope py_scope.
Delimit Scope py_scope with py.

Notation "x <- c1 ;; c2" := (bind c1 (fun x => c2))
  (at level 61, c1 at next level, right associativity) : py_scope.
Notation "c1 ;; c2" := (bind c1 (fun _ => c2))
  (at level 61, right associativity) : py_scope.

Local Open Scope py_scope.

(** [try: m  except Exception as e: handler e] *)
Definition try_except {A} (m : M A) (handler : exn -> M A) : M A :=
  r <- attempt m ;;
  match r with
  | Ok a => ret a
  | Raise e => handler e
  end.

(** [for x in xs: body x] *)
Fixpoint for_each {A} (xs : list A) (body : A -> M unit) : M unit :=
  match xs with
  | [] => ret tt
  | x :: rest => body x ;; for_each rest body
  end.

Definition log (r : log_record) : M unit := emit (Log r).

(** What a trace says was sent where. *)
Definition upstream_frames (t : list event) : list json :=
  flat_map (fun e => match e with UpstreamSend f => [f] | _ => [] end) t.

Definition client_frames (t : list event) : list json :=
  flat_map (fun e => match e with ClientSend f => [f] | _ => [] end) t.

Definition saves (t : list event) : list (json * Z * float) :=
  flat_map (fun e => match e with DbCommit i q p => [(i, q, p)] | _ => [] end) t.

Definition client_closes (t : list event) : nat :=
  length (filter (fun e => match e with ClientClose => true | _ => false end) t).

End Effects.
Import Effects.
Local Open Scope py_scope.

(* ===================================================================== *)
(** ** main.py                                                            *)
(* ===================================================================== *)

Module Main.

Definition MODEL_ID : string :=
  "models/gemini-2.5-flash-native-audio-preview-12-2025".

Definition TOOL_DEFINITIONS : json :=
  JArr [JObj [("function_declarations", JArr [JObj [
    ("name", JStr "place_order");
    ("description", JStr "Save order to database");
    ("parameters", JObj [
      ("type", JStr "OBJECT");
      ("properties", JObj [
        ("item", JObj [("type", JStr "STRING")]);
        ("quantity", JObj [("type", JStr "INTEGER")]);
        ("price", JObj [("type", JStr "NUMBER")])]);
      ("required", JArr [JStr "item"; JStr "quantity"; JStr "price"])])]])]].

(** The two halves of the system instruction around [{menu_text}]. *)
Definition prompt_head : string := "
                            You are a friendly and efficient Pakistani waiter.
                            
                            **MENU DATABASE (STRICTLY FOLLOW THIS):**
                            ".

Definition prompt_tail : string := "

                            **INSTRUCTIONS:**
                            1. Speak in a natural mix of **English + Roman Urdu**.
                            2. You can ONLY sell items listed in the MENU DATABASE above.
                            3. If an item is not in the list, politely say it is unavailable.
                            4. Confirm the exact price from the menu before calling the 'place_order' tool.
                            5. Once confirmed, call the 'place_order' tool immediately.
                            ".

Definition system_prompt (menu_text : string) : string :=
  String.append prompt_head (String.append menu_text prompt_tail).

Definition menu_placeholder : string := "Menu not available.".

(** The frame of step 2 of [run]. *)
Definition setup_frame (menu_text : string) : json :=
  JObj [("setup", JObj [
    ("model", JStr MODEL_ID);
    ("tools", TOOL_DEFINITIONS);
    ("generationConfig", JObj [
      ("responseModalities", JArr [JStr "AUDIO"]);
      ("speechConfig", JObj [("voiceConfig", JObj [("prebuiltVoiceConfig",
         JObj [("voiceName", JStr "Charon")])])])]);
    ("systemInstruction", JObj [
      ("parts", JArr [JObj [("text", JStr (system_prompt menu_text))]])])])].

(** The frame [browser_to_gemini] sends for an audio payload. *)
Definition realtime_input (payload : json) : json :=
  JObj [("realtimeInput", JObj [("mediaChunks", JArr [
    JObj [("mimeType", JStr "audio/pcm"); ("data", payload)]])])].

(** The frame [gemini_to_browser] answers a [place_order] call with. *)
Definition tool_response (call_id : json) : json :=
  JObj [("toolResponse", JObj [("functionResponses", JArr [JObj [
    ("name", JStr "place_order");
    ("id", call_id);
    ("response", JObj [("result", JObj [("status", JStr "success")])])]])])].

(** The frame [gemini_to_browser] plays back to the browser. *)
Definition audio_frame (payload : json) : json :=
  JObj [("type", JStr "audio"); ("data", payload)].

(** How a session stands when the model stops following it. *)
Inductive outcome : Type :=
| Returned
| StillRelaying.

(** One turn of a forwarding task. *)
Inductive progress : Type :=
| Continue (rest : stream)
| Finished (r : result unit)
| Blocked.

Section Session.
Variable env : Env.

(** [json.loads(message)] *)
Definition json_loads (m : message) : M json :=
  match m with
  | Json v => ret v
  | NotJson => raise JSONDecodeError
  end.

(** [await self.ws.send(json.dumps(frame))] *)
Definition ws_send (frame : json) : M unit :=
  h <- history ;;
  emit (UpstreamSend frame) ;;
  match upstream_send_fault env h with
  | Some e => raise e
  | None => ret tt
  end.

(** [await self.client_ws.send_json(frame)] *)
Definition client_send_json (frame : json) : M unit :=
  h <- history ;;
  emit (ClientSend frame) ;;
  match client_send_fault env h with
  | Some e => raise e
  | None => ret tt
  end.

(** [db.add(new_order); db.commit()] *)
Definition add_and_commit (item : json) (quantity : Z) (price : float)
                          (status : string) : M unit :=
  fun w =>
    let w1 := {| trace := trace w ++ [DbCommit item quantity price];
                 orders := orders w |} in
    match commit_fault env (trace w) with
    | Some e => (Raise e, w1)
    | None =>
        match insert (real_as_text env) (orders w) item quantity price status
                     (now env (trace w)) with
        | Raise e => (Raise e, w1)
        | Ok table => (Ok tt, {| trace := trace w1; orders := table |})
        end
    end.

(** [save_order]: everything between [try] and [except], the session taken
    from [get_db] included, can only fail as the commit does; [db.close()]
    after the log line has no effect that is followed here. *)
Definition save_order (item : json) (quantity : Z) (price : float) : M unit :=
  try_except
    (add_and_commit item quantity price "pending" ;;
     log (LogDatabaseSaved quantity item price))
    (fun e => log (LogDbError e)).

(** The menu loading at the head of [run]. *)
Definition load_menu : M string :=
  let menu_text := menu_placeholder in
  try_except
    (match menu_json env with
     | MenuPresent text => ret text
     | MenuUnreadable e => raise e
     | MenuAbsent => log LogMenuMissing ;; ret menu_text
     end)
    (fun e => log (LogMenuError e) ;; ret menu_text).

(** [websockets.connect(WS_URL, ...)] on entering the [async with]. *)
Definition connect : M unit :=
  emit Connect ;;
  match connect_fault env with
  | Some e => raise e
  | None => ret tt
  end.

(** The body of the [async for] of [browser_to_gemini]. *)
Definition browser_to_gemini_frame (message : message) : M unit :=
  data <- json_loads message ;;
  kind <- lift (Py.get data "type" JNull) ;;
  if eq_str kind "audio" then
    audio <- lift (getitem data "audio") ;;
    ws_send (realtime_input audio)
  else ret tt.

(** The body of [for fc in response["toolCall"]["functionCalls"]]. *)
Definition function_call (fc : json) : M unit :=
  name <- lift (getitem fc "name") ;;
  if eq_str name "place_order" then
    args <- lift (getitem fc "args") ;;
    item <- lift (getitem args "item") ;;
    quantity <- lift (getitem args "quantity") ;;
    quantity <- lift (Py.int (parsers env) quantity) ;;
    price <- lift (getitem args "price") ;;
    price <- lift (to_float (parsers env) price) ;;
    save_order item quantity price ;;
    call_id <- lift (getitem fc "id") ;;
    ws_send (tool_response call_id)
  else ret tt.

(** [if "toolCall" in response: ...] *)
Definition tool_call (response : json) : M unit :=
  present <- lift (contains "toolCall" response) ;;
  if (present : bool) then
    call <- lift (getitem response "toolCall") ;;
    calls <- lift (getitem call "functionCalls") ;;
    calls <- lift (iter calls) ;;
    for_each calls function_call
  else ret tt.

(** The body of [for part in parts]. *)
Definition model_part (part : json) : M unit :=
  present <- lift (contains "inlineData" part) ;;
  if (present : bool) then
    inline <- lift (getitem part "inlineData") ;;
    payload <- lift (getitem inline "data") ;;
    client_send_json (audio_frame payload)
  else ret tt.

(** [if "serverContent" in response: ...] *)
Definition server_content (response : json) : M unit :=
  present <- lift (contains "serverContent" response) ;;
  if (present : bool) then
    content <- lift (getitem response "serverContent") ;;
    turn <- lift (Py.get content "modelTurn" (JObj [])) ;;
    parts <- lift (Py.get turn "parts" (JArr [])) ;;
    parts <- lift (iter parts) ;;
    for_each parts model_part
  else ret tt.

(** The body of the [async for] of [gemini_to_browser]. *)
Definition gemini_to_browser_frame (msg : message) : M unit :=
  response <- json_loads msg ;;
  tool_call response ;;
  server_content response.

(** A forwarding task advanced by one turn of its [async for]: the next
    frame goes through [body]; an exception is logged and raised again, which
    ends the task; the end of the iteration ends the task normally. *)
Definition turn (body : message -> M unit) (on_error : exn -> log_record)
                (s : stream) : M progress :=
  match frames s with
  | message :: rest =>
      r <- attempt (body message) ;;
      match r with
      | Ok _ => ret (Continue {| frames := rest; ending := ending s |})
      | Raise e => log (on_error e) ;; ret (Finished (Raise e))
      end
  | [] =>
      match ending s with
      | Closed => ret (Finished (Ok tt))
      | Broken e => log (on_error e) ;; ret (Finished (Raise e))
      | Silent => ret Blocked
      end
  end.

Definition browser_to_gemini : stream -> M progress :=
  turn browser_to_gemini_frame LogBrowserDisconnected.

Definition gemini_to_browser : stream -> M progress :=
  turn gemini_to_browser_frame LogGeminiDisconnected.

(** [asyncio.wait([...], return_when=FIRST_COMPLETED)] over the two tasks,
    interleaved frame by frame as [schedule] says. The answer is the task
    that completed first with the result it holds, or [None] when the
    schedule ends with both tasks still running. Like [asyncio.wait], it
    never raises what a task raised. *)
Fixpoint wait_first_completed (schedule : list side) (client upstream : stream)
  : M (option (side * result unit)) :=
  match schedule with
  | [] => ret None
  | Browser :: later =>
      p <- browser_to_gemini client ;;
      match p with
      | Continue rest => wait_first_completed later rest upstream
      | Finished r => ret (Some (Browser, r))
      | Blocked => wait_first_completed later client upstream
      end
  | Gemini :: later =>
      p <- gemini_to_browser upstream ;;
      match p with
      | Continue rest => wait_first_completed later client rest
      | Finished r => ret (Some (Gemini, r))
      | Blocked => wait_first_completed later client upstream
      end
  end.

(** Steps 3 and 4 of [run]: start both tasks, wait for the first to
    complete, cancel what is pending. *)
Definition relay (schedule : list side) (client upstream : stream) : M outcome :=
  first <- wait_first_completed schedule client upstream ;;
  match first with
  | Some (done, _) => emit (Cancel (other done)) ;; ret Returned
  | None => ret StillRelaying
  end.

(** [async with websockets.connect(...) as gemini_ws: body]: the upstream
    connection is closed when the block is left, by return or by exception. *)
Definition async_with (body : M outcome) : M outcome :=
  connect ;;
  r <- attempt body ;;
  match r with
  | Ok StillRelaying => ret StillRelaying
  | Ok Returned => emit UpstreamClose ;; ret Returned
  | Raise e => emit UpstreamClose ;; raise e
  end.

(** [GeminiChatbot.run] *)
Definition run (schedule : list side) (client upstream : stream) : M outcome :=
  menu_text <- load_menu ;;
  try_except
    (async_with
       (log LogConnected ;;
        ws_send (setup_frame menu_text) ;;
        relay schedule client upstream))
    (fun e => log (LogSessionEnded e) ;; emit ClientClose ;; ret Returned).

End Session.

(** [get_orders]: [db.query(Order).order_by(Order.created_at.desc()).all()] *)
Definition get_orders (db : Table) : list Order :=
  order_by_created_at_desc db.

End Main.
Import Main.

(* ===================================================================== *)
(** ** What the properties are stated with                                *)
(* ===================================================================== *)

(** [performs P Q m]: whatever the world, [m] only appends to the trace and
    to the table; the events it appends satisfy [P], the rows [Q]. *)
Definition performs {A} (P : event -> Prop) (Q : Order -> Prop) (m : M A) : Prop :=
  forall w, exists evs rows,
    trace (snd (m w)) = trace w ++ evs /\
    orders (snd (m w)) = orders w ++ rows /\
    Forall P evs /\ Forall Q rows.

(** The world after some more events. *)
Definition appended (w : World) (evs : list event) : World :=
  {| trace := trace w ++ evs; orders := orders w |}.

(** The part of [run] that precedes the relay: menu, connection, setup. *)
Definition handshake (env : Env) : M unit :=
  menu_text <- load_menu env ;;
  connect env ;;
  log LogConnected ;;
  ws_send env (setup_frame menu_text).

(** How [run] leaves the [async with] block once the relay has answered. *)
Definition leave_session (answer : result outcome * World) : result outcome * World :=
  match answer with
  | (Ok StillRelaying, w) => (Ok StillRelaying, w)
  | (Ok Returned, w) => (Ok Returned, appended w [UpstreamClose])
  | (Raise e, w) =>
      (Ok Returned, appended w [UpstreamClose; Log (LogSessionEnded e); ClientClose])
  end.

(** How [run] ends when the handshake raised [e]. *)
Definition end_session (env : Env) (e : exn) (w : World) : result outcome * World :=
  (Ok Returned,
   appended w (match connect_fault env with
               | Some _ => []
               | None => [UpstreamClose]
               end ++ [Log (LogSessionEnded e); ClientClose])).

(** Newest first. *)
Definition newer_or_equal (a b : Order) : Prop := created_at b <= created_at a.

(** One entry of [functionCalls], as [gemini_to_browser] reads it. *)
Inductive call_view : Type :=
| Ignored
| PlaceOrder (call_id item : json) (quantity : Z) (price : float).

Definition call_is (env : Env) (fc : json) (v : call_view) : Prop :=
  match v with
  | Ignored =>
      exists name, getitem fc "name" = Ok name /\ eq_str name "place_order" = false
  | PlaceOrder call_id item quantity price =>
      exists args q p,
        getitem fc "name" = Ok (JStr "place_order") /\
        getitem fc "args" = Ok args /\
        getitem args "item" = Ok item /\
        getitem args "quantity" = Ok q /\
        Py.int (parsers env) q = Ok quantity /\
        getitem args "price" = Ok p /\
        to_float (parsers env) p = Ok price /\
        getitem fc "id" = Ok call_id
  end.

Definition requested_saves (views : list call_view) : list (json * Z * float) :=
  flat_map (fun v => match v with
                     | PlaceOrder _ item quantity price => [(item, quantity, price)]
                     | Ignored => []
                     end) views.

Definition requested_responses (views : list call_view) : list json :=
  flat_map (fun v =>
              match v with
              | PlaceOrder call_id _ _ _ =>
                  [JObj [("toolResponse", JObj [("functionResponses", JArr [JObj [
                     ("name", JStr "place_order");
                     ("id", call_id);
                     ("response",
                      JObj [("result", JObj [("status", JStr "success")])])]])])]]
              | Ignored => []
              end) views.

(** One entry of [parts]: [Some payload] when it carries [inlineData] with
    that [data], [None] when it carries no [inlineData]. *)
Definition part_is (part : json) (carried : option json) : Prop :=
  match carried with
  | Some payload =>
      exists inline, getitem part "inlineData" = Ok inline /\
                     getitem inline "data" = Ok payload
  | None => contains "inlineData" part = Ok false
  end.

Definition carried_payloads (carried : list (option json)) : list json :=
  flat_map (fun c => match c with Some p => [p] | None => [] end) carried.

(** Events by where they go. *)
Definition to_client (e : event) : Prop :=
  match e with ClientSend _ => True | _ => False end.

Definition not_to_client (e : event) : Prop :=
  match e with ClientSend _ | ClientClose => False | _ => True end.

Definition not_a_close (e : event) : Prop :=
  match e with ClientClose => False | _ => True end.

(** A row as [save_order] creates it. *)
Definition fresh_row (env : Env) (o : Order) : Prop :=
  status o = "pending" /\ exists h, created_at o = now env h.

(** Sample surroundings: nothing fails, the clock counts events. *)
Definition quiet_env : Env := {|
  parsers := {| int_of_str := fun _ => None; float_of_str := fun _ => None |};
  menu_json := MenuAbsent;
  connect_fault := None;
  upstream_send_fault := fun _ => None;
  client_send_fault := fun _ => None;
  commit_fault := fun _ => None;
  real_as_text := fun _ => "0.0";
  now := fun h => Z.of_nat (length h)
|}.

(** The same with a database that refuses every commit. *)
Definition broken_db_env : Env := {|
  parsers := parsers quiet_env;
  menu_json := MenuAbsent;
  connect_fault := None;
  upstream_send_fault := fun _ => None;
  client_send_fault := fun _ => None;
  commit_fault := fun _ => Some (DatabaseError "disk I/O error");
  real_as_text := real_as_text quiet_env;
  now := now quiet_env
|}.

(** The same with an upstream service that cannot be reached. *)
Definition unreachable_env : Env := {|
  parsers := parsers quiet_env;
  menu_json := MenuAbsent;
  connect_fault := Some (TransportError "timed out during opening handshake");
  upstream_send_fault := fun _ => None;
  client_send_fault := fun _ => None;
  commit_fault := fun _ => None;
  real_as_text := fun _ => "0.0";
  now := now quiet_env
|}.

Definition empty_world : World := {| trace := []; orders := [] |}.

(** Sample frames. [price_350] is the binary64 number 350.0. *)
Definition price_350 : float := S754_finite false 6157265115545600 (-44).

Definition place_order_call (call_id : string) (item quantity price : json) : json :=
  JObj [("name", JStr "place_order"); ("id", JStr call_id);
        ("args", JObj [("item", item); ("quantity", quantity); ("price", price)])].

Definition tool_call_frame (calls : list json) : json :=
  JObj [("toolCall", JObj [("functionCalls", JArr calls)])].

Definition biryani_call : json :=
  place_order_call "call-1" (JStr "Biryani") (JInt 2) (JFloat price_350).


Definition speech_parts : list json :=
  [JObj [("inlineData", JObj [("data", JStr "UklGRg==")])];
   JObj [("text", JStr "ji")];
   JObj [("inlineData", JObj [("data", JStr "AAA=")])]].

Definition speech_frame : json :=
  JObj [("serverContent", JObj [("modelTurn", JObj [("parts", JArr speech_parts)])])].

Definition hangs_up : stream := {| frames := []; ending := Closed |}.
Definition keeps_quiet : stream := {| frames := []; ending := Silent |}.

(** The text [run] embeds in the setup frame. *)
Definition menu_text_of (env : Env) : string :=
  match menu_json env with
  | MenuPresent text => text
  | MenuUnreadable _ | MenuAbsent => "Menu not available."
  end.

(** How often a trace leaves the [async with] block. *)
Definition upstream_closes (t : list event) : nat :=
  length (filter (fun e => match e with UpstreamClose => true | _ => false end) t).

(** Events that put nothing on a socket and nothing in the table. *)
Definition silent_event (e : event) : Prop :=
  match e with Log _ | Connect => True | _ => False end.

(** What the outbound task may do: send a realtime-input envelope. *)
Definition outbound_event (e : event) : Prop :=
  match e with
  | UpstreamSend f =>
      exists payload,
        f = JObj [("realtimeInput", JObj [("mediaChunks", JArr [
              JObj [("mimeType", JStr "audio/pcm"); ("data", payload)]])])]
  | _ => False
  end.

(** What the inbound task may do: commit an order and log how that went,
    answer a call, play audio back. *)
Definition inbound_event (e : event) : Prop :=
  match e with
  | DbCommit _ _ _ => True
  | Log (LogDatabaseSaved _ _ _) | Log (LogDbError _) => True
  | UpstreamSend f =>
      exists call_id,
        f = JObj [("toolResponse", JObj [("functionResponses", JArr [JObj [
              ("name", JStr "place_order");
              ("id", call_id);
              ("response", JObj [("result", JObj [("status", JStr "success")])])]])])]
  | ClientSend f =>
      exists payload, f = JObj [("type", JStr "audio"); ("data", payload)]
  | _ => False
  end.

(** What can happen while the two tasks run. *)
Definition relay_event (e : event) : Prop :=
  match e with
  | DbCommit _ _ _ => True
  | Log (LogDatabaseSaved _ _ _) | Log (LogDbError _) => True
  | Log (LogBrowserDisconnected _) | Log (LogGeminiDisconnected _) => True
  | UpstreamSend f =>
      (exists payload,
          f = JObj [("realtimeInput", JObj [("mediaChunks", JArr [
                JObj [("mimeType", JStr "audio/pcm"); ("data", payload)]])])]) \/
      (exists call_id,
          f = JObj [("toolResponse", JObj [("functionResponses", JArr [JObj [
                ("name", JStr "place_order");
                ("id", call_id);
                ("response", JObj [("result", JObj [("status", JStr "success")])])]])])])
  | ClientSend f =>
      exists payload, f = JObj [("type", JStr "audio"); ("data", payload)]
  | _ => False
  end.

(** What can happen in a whole session: upstream, the setup frame around
    some prompt text, realtime-input envelopes and place_order answers; to
    the browser, audio frames. *)
Definition session_event (e : event) : Prop :=
  match e with
  | UpstreamSend f =>
      (exists text,
          f = JObj [("setup", JObj [
                ("model", JStr MODEL_ID);
                ("tools", TOOL_DEFINITIONS);
                ("generationConfig", JObj [
                   ("responseModalities", JArr [JStr "AUDIO"]);
                   ("speechConfig", JObj [("voiceConfig", JObj [
                      ("prebuiltVoiceConfig", JObj [("voiceName", JStr "Charon")])])])]);
                ("systemInstruction", JObj [
                   ("parts", JArr [JObj [("text", JStr text)]])])])]) \/
      (exists payload,
          f = JObj [("realtimeInput", JObj [("mediaChunks", JArr [
                JObj [("mimeType", JStr "audio/pcm"); ("data", payload)]])])]) \/
      (exists call_id,
          f = JObj [("toolResponse", JObj [("functionResponses", JArr [JObj [
                ("name", JStr "place_order");
                ("id", call_id);
                ("response", JObj [("result", JObj [("status", JStr "success")])])]])])])
  | ClientSend f =>
      exists payload, f = JObj [("type", JStr "audio"); ("data", payload)]
  | _ => True
  end.

(** A client frame of kind "audio" with its payload. *)
Definition audio_is (msg : message) (payload : json) : Prop :=
  exists fields,
    msg = Json (JObj fields) /\
    lookup "type" fields = Some (JStr "audio") /\
    lookup "audio" fields = Some payload.

(** An upstream server-content frame without tool calls, with the payloads
    its parts carry. *)
Definition speech_is (msg : message) (carried : list (option json)) : Prop :=
  exists response content model_turn parts,
    msg = Json response /\
    contains "toolCall" response = Ok false /\
    getitem response "serverContent" = Ok content /\
    Py.get content "modelTurn" (JObj []) = Ok model_turn /\
    Py.get model_turn "parts" (JArr []) = Ok (JArr parts) /\
    Forall2 part_is parts carried.

(** How many turns a schedule gives the inbound task. *)
Definition gemini_turns (schedule : list side) : nat :=
  length (filter (fun s => match s with Gemini => true | Browser => false end) schedule).

(** How many turns a schedule gives the outbound task. *)
Definition browser_turns (schedule : list side) : nat :=
  length (filter (fun s => match s with Browser => true | Gemini => false end) schedule).

(** The log line a task writes when it ends by an exception. *)
Definition disconnected (s : side) (e : exn) : log_record :=
  match s with
  | Browser => LogBrowserDisconnected e
  | Gemini => LogGeminiDisconnected e
  end.

(** Oldest first, no two rows at the same time. *)
Definition older (a b : Order) : Prop := created_at a < created_at b.

(** Sample surroundings with a menu on disk. *)
Definition menu_env : Env := {|
  parsers := parsers quiet_env;
  menu_json := MenuPresent "{}";
  connect_fault := None;
  upstream_send_fault := fun _ => None;
  client_send_fault := fun _ => None;
  commit_fault := fun _ => None;
  real_as_text := fun _ => "0.0";
  now := now quiet_env
|}.


Definition deaf_client_env : Env := {|
  parsers := parsers quiet_env;
  menu_json := MenuAbsent;
  connect_fault := None;
  upstream_send_fault := fun _ => None;
  client_send_fault := fun _ => Some (TransportError "connection closed");
  commit_fault := fun _ => None;
  real_as_text := real_as_text quiet_env;
  now := now quiet_env
|}.

(** Sample parts, the middle one with an inlineData that has no data. *)
Definition broken_parts : list json :=
  [JObj [("inlineData", JObj [("data", JStr "UklGRg==")])];
   JObj [("inlineData", JObj [])];
   JObj [("inlineData", JObj [("data", JStr "AAA=")])]].

(** A sample call that lacks its id. *)
Definition anonymous_call : json :=
  JObj [("name", JStr "place_order");
        ("args", JObj [("item", JStr "Biryani"); ("quantity", JInt 2);
                       ("price", JFloat price_350)])].


(* ===================================================================== *)
(** ** The monad                                                          *)
(* ===================================================================== *)

Section MonadFacts.
Context {A B : Type}.

Lemma bind_ok (m : M A) (k : A -> M B) w a w' :
  m w = (Ok a, w') -> bind m k w = k a w'.
Proof. unfold bind. intros ->. reflexivity. Qed.


Lemma lift_eq (r : result A) (a : A) (k : A -> M B) w :
  r = Ok a -> bind (lift r) k w = k a w.
Proof. intros ->. reflexivity. Qed.

End MonadFacts.

Section Performs.
Variables (P : event -> Prop) (Q : Order -> Prop).

Lemma performs_ret {A} (a : A) : performs P Q (ret a).
Proof. intros w. exists [], []. cbn. now rewrite !app_nil_r. Qed.

Lemma performs_raise {A} (e : exn) : performs P Q (@raise A e).
Proof. intros w. exists [], []. cbn. now rewrite !app_nil_r. Qed.

Lemma performs_lift {A} (r : result A) : performs P Q (lift r).
Proof. intros w. exists [], []. cbn. now rewrite !app_nil_r. Qed.

Lemma performs_history : performs P Q history.
Proof. intros w. exists [], []. cbn. now rewrite !app_nil_r. Qed.

Lemma performs_emit (e : event) : P e -> performs P Q (emit e).
Proof.
  intros He w. exists [e], []. cbn. rewrite app_nil_r. auto.
Qed.

Lemma performs_bind {A B} (m : M A) (k : A -> M B) :
  performs P Q m -> (forall a, performs P Q (k a)) -> performs P Q (bind m k).
Proof.
  intros Hm Hk w. unfold bind.
  destruct (Hm w) as (evs & rows & Ht & Ho & HP & HQ).
  destruct (m w) as [[a | e] w1]; cbn in *.
  - destruct (Hk a w1) as (evs' & rows' & Ht' & Ho' & HP' & HQ').
    exists (evs ++ evs'), (rows ++ rows').
    rewrite Ht', Ho', Ht, Ho, !app_assoc.
    repeat split; auto; apply Forall_app; auto.
  - exists evs, rows. auto.
Qed.

Lemma performs_attempt {A} (m : M A) : performs P Q m -> performs P Q (attempt m).
Proof.
  intros Hm w. unfold attempt.
  destruct (Hm w) as (evs & rows & H). destruct (m w). now exists evs, rows.
Qed.

Lemma performs_try_except {A} (m : M A) (handler : exn -> M A) :
  performs P Q m -> (forall e, performs P Q (handler e)) ->
  performs P Q (try_except m handler).
Proof.
  intros Hm Hh. unfold try_except.
  apply performs_bind; [now apply performs_attempt|].
  intros [a | e]; [apply performs_ret | apply Hh].
Qed.

Lemma performs_for_each {A} (xs : list A) (body : A -> M unit) :
  (forall x, performs P Q (body x)) -> performs P Q (for_each xs body).
Proof.
  intros Hb. induction xs as [| x xs IH]; cbn.
  - apply performs_ret.
  - apply performs_bind; auto.
Qed.

End Performs.

Lemma performs_weaken {A} (P P' : event -> Prop) (Q Q' : Order -> Prop) (m : M A) :
  (forall e, P e -> P' e) -> (forall o, Q o -> Q' o) ->
  performs P Q m -> performs P' Q' m.
Proof.
  intros HP HQ Hm w. destruct (Hm w) as (evs & rows & Ht & Ho & H1 & H2).
  exists evs, rows. repeat split; auto; eapply Forall_impl; eauto.
Qed.

(* ===================================================================== *)
(** ** Sends, commits and the order sink                                  *)
(* ===================================================================== *)

Lemma ws_send_eq env frame w :
  ws_send env frame w =
  (match upstream_send_fault env (trace w) with
   | Some e => Raise e
   | None => Ok tt
   end, appended w [UpstreamSend frame]).
Proof.
  unfold ws_send, bind, history, emit, appended; cbn.
  destruct (upstream_send_fault env (trace w)); reflexivity.
Qed.

Lemma client_send_json_eq env frame w :
  client_send_json env frame w =
  (match client_send_fault env (trace w) with
   | Some e => Raise e
   | None => Ok tt
   end, appended w [ClientSend frame]).
Proof.
  unfold client_send_json, bind, history, emit, appended; cbn.
  destruct (client_send_fault env (trace w)); reflexivity.
Qed.

Lemma save_order_eq env item quantity price w :
  save_order env item quantity price w =
  match commit_fault env (trace w) with
  | Some e =>
      (Ok tt, appended w [DbCommit item quantity price; Log (LogDbError e)])
  | None =>
      match insert (real_as_text env) (orders w) item quantity price "pending"
                   (now env (trace w)) with
      | Raise e =>
          (Ok tt, appended w [DbCommit item quantity price; Log (LogDbError e)])
      | Ok table =>
          (Ok tt,
           {| trace := trace w ++ [DbCommit item quantity price;
                                   Log (LogDatabaseSaved quantity item price)];
              orders := table |})
      end
  end.
Proof.
  unfold save_order, try_except, attempt, bind, add_and_commit, log, emit, ret, appended.
  destruct (commit_fault env (trace w)); cbn; [now rewrite <- app_assoc |].
  destruct (insert _ _ _ _ _ _ _); cbn; now rewrite <- app_assoc.
Qed.

(** A successful insert appends one row, with the status and time given. *)
Lemma insert_appends render t item quantity price status now table :
  insert render t item quantity price status now = Ok table ->
  exists stored_item stored_quantity,
    bind_text render item = Ok stored_item /\
    bind_integer quantity = Ok stored_quantity /\
    table = t ++ [ {| id := next_id t; item := stored_item;
                      quantity := stored_quantity; price := bind_real price;
                      status := status; created_at := now |} ].
Proof.
  unfold insert.
  destruct (bind_text render item) as [i |]; [| discriminate].
  destruct (bind_integer quantity) as [q |]; [| discriminate].
  intros [= <-]. now exists i, q.
Qed.

(** What a call of [save_order] comes to, whatever the database does: the
    commit attempt and one log line, and at most one new row. *)
Lemma save_order_shape env item quantity price w :
  exists l rows,
    save_order env item quantity price w =
      (Ok tt, {| trace := trace w ++ [DbCommit item quantity price; Log l];
                 orders := orders w ++ rows |}) /\
    (l = LogDatabaseSaved quantity item price \/ exists e, l = LogDbError e) /\
    Forall (fun o => status o = "pending" /\ created_at o = now env (trace w)) rows.
Proof.
  rewrite save_order_eq. unfold appended.
  destruct (commit_fault env (trace w)) as [e |].
  - exists (LogDbError e), []. rewrite app_nil_r. eauto.
  - destruct (insert _ _ _ _ _ _ _) as [table | e] eqn:E.
    + apply insert_appends in E. destruct E as (i & q & _ & _ & ->).
      eexists _, [_]. split; [reflexivity |]. split; [now left |].
      constructor; [| constructor]. now split.
    + exists (LogDbError e), []. rewrite app_nil_r. eauto.
Qed.

(* ===================================================================== *)
(** ** The outbound task: browser to upstream                             *)
(* ===================================================================== *)

Lemma eq_str_true value s : eq_str value s = true <-> value = JStr s.
Proof.
  destruct value; cbn; try (split; [discriminate | discriminate]).
  rewrite String.eqb_eq. split; [now intros -> | now intros [= ->]].
Qed.

Lemma eq_str_false value s : eq_str value s = false <-> value <> JStr s.
Proof.
  rewrite <- eq_str_true. destruct (eq_str value s); split; congruence.
Qed.

Lemma browser_frame_audio env fields payload w :
  lookup "type" fields = Some (JStr "audio") ->
  lookup "audio" fields = Some payload ->
  browser_to_gemini_frame env (Json (JObj fields)) w =
  ws_send env (realtime_input payload) w.
Proof.
  intros Hk Ha.
  cbv beta iota delta [browser_to_gemini_frame json_loads bind ret lift Py.get getitem].
  rewrite Hk. cbn [eq_str String.eqb Ascii.eqb Bool.eqb]. rewrite Ha. reflexivity.
Qed.

Lemma browser_frame_audio_missing env fields w :
  lookup "type" fields = Some (JStr "audio") ->
  lookup "audio" fields = None ->
  browser_to_gemini_frame env (Json (JObj fields)) w = (Raise (KeyError "audio"), w).
Proof.
  intros Hk Ha.
  cbv beta iota delta [browser_to_gemini_frame json_loads bind ret lift Py.get getitem].
  rewrite Hk. cbn [eq_str String.eqb Ascii.eqb Bool.eqb]. rewrite Ha. reflexivity.
Qed.

Lemma browser_frame_other_kind env fields w :
  lookup "type" fields <> Some (JStr "audio") ->
  browser_to_gemini_frame env (Json (JObj fields)) w = (Ok tt, w).
Proof.
  intros Hk.
  cbv beta iota delta [browser_to_gemini_frame json_loads bind ret lift Py.get].
  destruct (lookup "type" fields) as [kind |] eqn:E; [| reflexivity].
  assert (Hf : eq_str kind "audio" = false) by (apply eq_str_false; congruence).
  rewrite Hf. reflexivity.
Qed.

Lemma browser_frame_not_object env value w :
  (forall fields, value <> JObj fields) ->
  browser_to_gemini_frame env (Json value) w = (Raise AttributeError, w).
Proof.
  intros Hv. destruct value; try reflexivity. now destruct (Hv fields).
Qed.



(** C10, as the code has it. With the upstream send succeeding, a client
    frame is fatal to the outbound task exactly when it is not JSON, or is
    JSON but not an object, or is an object of type "audio" without an
    "audio" key; a fatal frame ends the task with that exception and, the
    task being the first to complete, ends the session. *)
Theorem browser_frame_fatal_iff env msg w :
  upstream_send_fault env (trace w) = None ->
  ((exists e, fst (browser_to_gemini_frame env msg w) = Raise e) <->
   (msg = NotJson \/
    (exists value, msg = Json value /\ forall fields, value <> JObj fields) \/
    (exists fields, msg = Json (JObj fields) /\
                    lookup "type" fields = Some (JStr "audio") /\
                    lookup "audio" fields = None))) /\
  (forall e rest how later upstream,
      fst (browser_to_gemini_frame env msg w) = Raise e ->
      fst (browser_to_gemini env {| frames := msg :: rest; ending := how |} w) =
        Ok (Finished (Raise e)) /\
      fst (relay env (Browser :: later) {| frames := msg :: rest; ending := how |}
                 upstream w) = Ok Returned).
Proof.
  intros Hsend. split.
  - split.
    + intros [e He]. destruct msg as [| value]; [now left | right].
      destruct value; try (left; eexists; split; [reflexivity | discriminate]).
      right. exists fields.
      destruct (lookup "type" fields) as [kind |] eqn:Ek.
      * destruct (eq_str kind "audio") eqn:Eq.
        -- apply eq_str_true in Eq. subst kind.
           destruct (lookup "audio" fields) as [payload |] eqn:Ea; [| easy].
           rewrite (browser_frame_audio _ _ _ _ Ek Ea), ws_send_eq, Hsend in He.
           discriminate.
        -- apply eq_str_false in Eq.
           rewrite browser_frame_other_kind in He by congruence. discriminate.
      * rewrite browser_frame_other_kind in He by congruence. discriminate.
    + intros [-> | [(value & -> & Hv) | (fields & -> & Hk & Ha)]].
      * now exists JSONDecodeError.
      * exists AttributeError. now rewrite browser_frame_not_object.
      * exists (KeyError "audio"). now rewrite browser_frame_audio_missing.
  - intros e rest how later upstream He.
    unfold relay, wait_first_completed, browser_to_gemini, turn, attempt, bind; cbn.
    destruct (browser_to_gemini_frame env msg w) as [r w1]; cbn in *. subst r.
    cbn. split; reflexivity.
Qed.

Lemma browser_frame_fatal_example :
  exists e, fst (browser_to_gemini_frame quiet_env
                   (Json (JObj [("type", JStr "audio")])) empty_world) = Raise e.
Proof.
  apply (proj1 (browser_frame_fatal_iff quiet_env _ empty_world eq_refl)).
  right; right. eexists. repeat split.
Defined.

(** C10 as stated fails: the frame [[]] is valid JSON and is not an object
    of type "audio" without an "audio" key, the send would succeed, and the
    frame is fatal all the same. *)
Lemma json_array_frame_is_fatal :
  fst (browser_to_gemini_frame quiet_env (Json (JArr [])) empty_world) =
    Raise AttributeError /\
  upstream_send_fault quiet_env (trace empty_world) = None /\
  Json (JArr []) <> NotJson /\
  (forall fields, Json (JArr []) <> Json (JObj fields)) /\
  fst (relay quiet_env [Browser] {| frames := [Json (JArr [])]; ending := Silent |}
             keeps_quiet empty_world) = Ok Returned.
Proof.
  repeat split; try discriminate.
Qed.

(* ===================================================================== *)
(** ** The inbound task: upstream to browser                              *)
(* ===================================================================== *)

Lemma saves_app t1 t2 : saves (t1 ++ t2) = saves t1 ++ saves t2.
Proof. apply flat_map_app. Qed.

Lemma upstream_frames_app t1 t2 :
  upstream_frames (t1 ++ t2) = upstream_frames t1 ++ upstream_frames t2.
Proof. apply flat_map_app. Qed.

Lemma client_frames_app t1 t2 :
  client_frames (t1 ++ t2) = client_frames t1 ++ client_frames t2.
Proof. apply flat_map_app. Qed.

Lemma not_to_client_frames evs :
  Forall not_to_client evs -> client_frames evs = [] /\ client_closes evs = 0%nat.
Proof.
  induction 1 as [| e evs He _ [IH1 IH2]]; [easy |].
  destruct e; cbn in *; auto; contradiction.
Qed.

Lemma to_client_only evs :
  Forall to_client evs ->
  saves evs = [] /\ upstream_frames evs = [] /\ client_closes evs = 0%nat.
Proof.
  induction 1 as [| e evs He _ IH]; [easy |].
  destruct e; cbn in *; auto; contradiction.
Qed.

Lemma not_a_close_count evs : Forall not_a_close evs -> client_closes evs = 0%nat.
Proof.
  induction 1 as [| e evs He _ IH]; [easy |].
  destruct e; cbn in *; auto; contradiction.
Qed.

Lemma function_call_place_order env fc call_id item quantity price w :
  call_is env fc (PlaceOrder call_id item quantity price) ->
  function_call env fc w =
  (save_order env item quantity price ;; ws_send env (tool_response call_id)) w.
Proof.
  intros (args & q & p & Hn & Ha & Hi & Hq & Hqi & Hp & Hpf & Hid).
  unfold function_call.
  rewrite (lift_eq _ _ _ _ Hn). cbn [eq_str String.eqb Ascii.eqb Bool.eqb].
  rewrite (lift_eq _ _ _ _ Ha), (lift_eq _ _ _ _ Hi), (lift_eq _ _ _ _ Hq),
    (lift_eq _ _ _ _ Hqi), (lift_eq _ _ _ _ Hp), (lift_eq _ _ _ _ Hpf).
  unfold bind at 1. unfold bind at 2.
  destruct (save_order env item quantity price w) as [[[] | e] w1]; [| reflexivity].
  now rewrite (lift_eq _ _ _ _ Hid).
Qed.

Lemma function_call_ignored env fc w :
  call_is env fc Ignored -> function_call env fc w = (Ok tt, w).
Proof.
  intros (name & Hn & Hf). unfold function_call.
  rewrite (lift_eq _ _ _ _ Hn), Hf. reflexivity.
Qed.

(** A well-formed list of calls, one call after the other. *)
Lemma function_calls_run env calls views :
  Forall2 (call_is env) calls views ->
  (forall h, upstream_send_fault env h = None) ->
  forall w, exists evs,
    fst (for_each calls (function_call env) w) = Ok tt /\
    trace (snd (for_each calls (function_call env) w)) = trace w ++ evs /\
    saves evs = requested_saves views /\
    upstream_frames evs = requested_responses views.
Proof.
  intros Hcalls Hsend. induction Hcalls as [| fc v calls views Hfc _ IH]; intros w.
  - exists []. cbn. now rewrite app_nil_r.
  - cbn [for_each]. destruct v as [| call_id item quantity price].
    + rewrite (bind_ok _ _ _ _ _ (function_call_ignored _ _ _ Hfc)).
      destruct (IH w) as (evs & H1 & H2 & H3 & H4). now exists evs.
    + assert (Hrun : exists l,
                 function_call env fc w =
                 (Ok tt, {| trace := trace w ++ [DbCommit item quantity price; Log l;
                                                 UpstreamSend (tool_response call_id)];
                            orders := orders (snd (function_call env fc w)) |})).
      { rewrite (function_call_place_order _ _ _ _ _ _ _ Hfc).
        unfold bind.
        destruct (save_order_shape env item quantity price w) as (l & rows & -> & _).
        rewrite ws_send_eq, Hsend. unfold appended; cbn.
        rewrite <- app_assoc. eexists; reflexivity. }
      destruct Hrun as (l & Hrun). rewrite (bind_ok _ _ _ _ _ Hrun).
      match goal with |- context [for_each calls _ ?w1] =>
        destruct (IH w1) as (evs & H1 & H2 & H3 & H4) end.
      exists ([DbCommit item quantity price; Log l;
               UpstreamSend (tool_response call_id)] ++ evs).
      rewrite H1, H2. cbn [trace]. rewrite <- app_assoc.
      rewrite saves_app, upstream_frames_app, H3, H4. now cbn.
Qed.

Lemma tool_call_run env response call calls w :
  getitem response "toolCall" = Ok call ->
  getitem call "functionCalls" = Ok (JArr calls) ->
  tool_call env response w = for_each calls (function_call env) w.
Proof.
  intros Hcall Hcalls. unfold tool_call.
  assert (Hin : contains "toolCall" response = Ok true).
  { destruct response; try discriminate. cbn in *.
    destruct (lookup "toolCall" fields); [reflexivity | discriminate]. }
  rewrite (lift_eq _ _ _ _ Hin), (lift_eq _ _ _ _ Hcall), (lift_eq _ _ _ _ Hcalls).
  reflexivity.
Qed.

(** Which events and rows each piece of the session can add. *)
Create HintDb performs.

Ltac performs_auto :=
  repeat first
    [ solve [auto 1 with performs nocore]
    | apply performs_ret | apply performs_raise | apply performs_lift
    | apply performs_history
    | apply performs_emit; exact I
    | apply performs_bind; [| intros ?]
    | apply performs_try_except; [| intros ?]
    | apply performs_attempt
    | apply performs_for_each; intros ?
    | match goal with |- performs _ _ (if ?b then _ else _) => destruct b end
    | match goal with |- performs _ _ (match ?x with _ => _ end) => destruct x end ].

Lemma save_order_performs env item quantity price :
  performs not_to_client (fresh_row env) (save_order env item quantity price).
Proof.
  intros w.
  destruct (save_order_shape env item quantity price w) as (l & rows & -> & _ & Hrows).
  exists [DbCommit item quantity price; Log l], rows. cbn.
  split; [reflexivity |]. split; [reflexivity |]. split; [repeat constructor |].
  eapply Forall_impl; [| exact Hrows]. intros o [Hs Ht]. split; [exact Hs | eauto].
Qed.

#[global] Hint Resolve save_order_performs : performs.

Lemma function_call_performs env fc :
  performs not_to_client (fresh_row env) (function_call env fc).
Proof.
  unfold function_call. performs_auto.
Qed.

#[global] Hint Resolve function_call_performs : performs.

Lemma tool_call_performs env response :
  performs not_to_client (fresh_row env) (tool_call env response).
Proof.
  unfold tool_call. performs_auto.
Qed.

Lemma model_part_performs env part :
  performs to_client (fun _ => False) (model_part env part).
Proof. unfold model_part, client_send_json. performs_auto. Qed.

#[global] Hint Resolve model_part_performs : performs.

Lemma server_content_performs env response :
  performs to_client (fun _ => False) (server_content env response).
Proof.
  unfold server_content. performs_auto.
Qed.

Lemma browser_frame_performs env msg :
  performs not_to_client (fun _ => False) (browser_to_gemini_frame env msg).
Proof. unfold browser_to_gemini_frame, json_loads, ws_send. performs_auto. Qed.

Lemma gemini_frame_performs env msg :
  performs not_a_close (fresh_row env) (gemini_to_browser_frame env msg).
Proof.
  unfold gemini_to_browser_frame. apply performs_bind.
  - destruct msg; [apply performs_raise | apply performs_ret].
  - intros response. apply performs_bind; [| intros _].
    + eapply performs_weaken; [| | apply tool_call_performs]; auto.
      now intros [].
    + eapply performs_weaken; [| | apply server_content_performs]; [| easy].
      now intros [].
Qed.

Lemma turn_performs env body on_error s :
  (forall m, performs not_a_close (fresh_row env) (body m)) ->
  performs not_a_close (fresh_row env) (turn body on_error s).
Proof.
  intros Hb. unfold turn, log. destruct (frames s) as [| m rest].
  - destruct (ending s); performs_auto.
  - apply performs_bind; [apply performs_attempt, Hb |].
    intros [[] | e]; performs_auto.
Qed.

Lemma wait_first_completed_performs env schedule :
  forall client upstream,
    performs not_a_close (fresh_row env)
             (wait_first_completed env schedule client upstream).
Proof.
  induction schedule as [| [|] later IH]; intros client upstream; cbn.
  - apply performs_ret.
  - apply performs_bind.
    + apply turn_performs. intros m.
      eapply performs_weaken; [| | apply browser_frame_performs]; [| easy].
      now intros [].
    + intros [rest | r |]; auto. apply performs_ret.
  - apply performs_bind.
    + apply turn_performs. apply gemini_frame_performs.
    + intros [rest | r |]; auto. apply performs_ret.
Qed.

Lemma relay_performs env schedule client upstream :
  performs not_a_close (fresh_row env) (relay env schedule client upstream).
Proof.
  unfold relay. apply performs_bind; [apply wait_first_completed_performs |].
  intros [[done r] |]; performs_auto.
Qed.

Lemma relay_appends env schedule client upstream :
  performs (fun _ => True) (fresh_row env) (relay env schedule client upstream).
Proof. eapply performs_weaken; [| | apply relay_performs]; auto. Qed.

#[global] Hint Resolve relay_appends : performs.


Lemma model_part_carrying env part payload w :
  part_is part (Some payload) ->
  model_part env part w = client_send_json env (audio_frame payload) w.
Proof.
  intros (inline & Hi & Hd). unfold model_part.
  assert (Hin : contains "inlineData" part = Ok true).
  { destruct part; try discriminate. cbn in *.
    destruct (lookup "inlineData" fields); [reflexivity | discriminate]. }
  now rewrite (lift_eq _ _ _ _ Hin), (lift_eq _ _ _ _ Hi), (lift_eq _ _ _ _ Hd).
Qed.

Lemma model_part_plain env part w :
  part_is part None -> model_part env part w = (Ok tt, w).
Proof.
  intros Hin. unfold model_part. cbn in Hin. now rewrite (lift_eq _ _ _ _ Hin).
Qed.

(** A well-formed list of parts, one part after the other. *)
Lemma model_parts_run env parts carried :
  Forall2 part_is parts carried ->
  (forall h, client_send_fault env h = None) ->
  forall w,
    for_each parts (model_part env) w =
    (Ok tt, appended w (map ClientSend (map audio_frame (carried_payloads carried)))).
Proof.
  intros Hparts Hsend.
  induction Hparts as [| part c parts carried Hpart _ IH]; intros w.
  - unfold appended. cbn. rewrite app_nil_r. now destruct w.
  - cbn [for_each]. destruct c as [payload |].
    + assert (Hone : model_part env part w =
                     (Ok tt, appended w [ClientSend (audio_frame payload)])).
      { rewrite (model_part_carrying _ _ _ _ Hpart), client_send_json_eq.
        now rewrite Hsend. }
      rewrite (bind_ok _ _ _ _ _ Hone), IH. unfold appended. cbn.
      now rewrite <- app_assoc.
    + rewrite (bind_ok _ _ _ _ _ (model_part_plain _ _ _ Hpart)). apply IH.
Qed.

Lemma server_content_run env response content model_turn parts w :
  getitem response "serverContent" = Ok content ->
  Py.get content "modelTurn" (JObj []) = Ok model_turn ->
  Py.get model_turn "parts" (JArr []) = Ok (JArr parts) ->
  server_content env response w = for_each parts (model_part env) w.
Proof.
  intros Hc Ht Hp. unfold server_content.
  assert (Hin : contains "serverContent" response = Ok true).
  { destruct response; try discriminate. cbn in *.
    destruct (lookup "serverContent" fields); [reflexivity | discriminate]. }
  now rewrite (lift_eq _ _ _ _ Hin), (lift_eq _ _ _ _ Hc), (lift_eq _ _ _ _ Ht),
    (lift_eq _ _ _ _ Hp).
Qed.





(** C5, as the code has it. When the parts of an upstream server-content
    frame are well formed (each either carries inlineData with a data
    payload or carries no inlineData), client sends succeed and the frame's
    tool-call part, if any, went through, the inbound task sends the browser
    exactly one frame {"type": "audio", "data": payload} per part that
    carries inlineData, in the order of the parts, each with that part's
    payload unchanged, and nothing for the other parts. *)
Theorem inline_parts_forwarded_in_order
        env response content model_turn parts carried w :
  fst (tool_call env response w) = Ok tt ->
  getitem response "serverContent" = Ok content ->
  Py.get content "modelTurn" (JObj []) = Ok model_turn ->
  Py.get model_turn "parts" (JArr []) = Ok (JArr parts) ->
  Forall2 part_is parts carried ->
  (forall h, client_send_fault env h = None) ->
  exists evs,
    trace (snd (gemini_to_browser_frame env (Json response) w)) = trace w ++ evs /\
    client_frames evs =
      map (fun payload => JObj [("type", JStr "audio"); ("data", payload)])
          (carried_payloads carried) /\
    length (client_frames evs) = length (carried_payloads carried).
Proof.
  intros Htool Hc Ht Hp Hparts Hsend.
  unfold gemini_to_browser_frame, json_loads. rewrite (bind_ok _ _ w response w eq_refl).
  destruct (tool_call_performs env response w) as (evs1 & rows & Ht1 & _ & HP & _).
  destruct (tool_call env response w) as [r w1] eqn:E. cbn in Htool, Ht1. subst r.
  rewrite (bind_ok _ _ _ _ _ E), (server_content_run _ _ _ _ _ _ Hc Ht Hp).
  rewrite (model_parts_run _ _ _ Hparts Hsend). cbn [snd appended trace].
  destruct (not_to_client_frames _ HP) as (Hnone & _).
  eexists. split; [rewrite Ht1, <- app_assoc; reflexivity |].
  assert (Hframes : forall fs, client_frames (map ClientSend fs) = fs).
  { induction fs as [| f fs IH]; cbn; [reflexivity | now f_equal]. }
  rewrite client_frames_app, Hnone, Hframes. cbn [app]. split; [reflexivity |].
  now rewrite length_map.
Qed.

Lemma inline_parts_forwarded_example :
  exists evs,
    trace (snd (gemini_to_browser_frame quiet_env (Json speech_frame) empty_world)) =
      trace empty_world ++ evs /\
    client_frames evs =
      map (fun payload => JObj [("type", JStr "audio"); ("data", payload)])
          (carried_payloads [Some (JStr "UklGRg=="); None; Some (JStr "AAA=")]) /\
    length (client_frames evs) =
      length (carried_payloads [Some (JStr "UklGRg=="); None; Some (JStr "AAA=")]).
Proof.
  apply (inline_parts_forwarded_in_order quiet_env speech_frame
           (JObj [("modelTurn", JObj [("parts", JArr speech_parts)])])
           (JObj [("parts", JArr speech_parts)]) speech_parts
           [Some (JStr "UklGRg=="); None; Some (JStr "AAA=")] empty_world
           eq_refl eq_refl eq_refl eq_refl).
  - repeat constructor; cbn; eexists; split; reflexivity.
  - reflexivity.
Defined.

(** C5 as stated fails. Of three parts that carry inlineData, the middle
    one without a data field, only the first reaches the browser: the
    second ends the task with KeyError "data". Of three well-formed parts
    only the first is attempted when the client send fails. And no part
    reaches the browser when the frame's tool call ends the task first. *)
Lemma inline_parts_not_always_forwarded :
  (client_frames (trace (snd (gemini_to_browser_frame quiet_env
      (Json (JObj [("serverContent", JObj [("modelTurn",
                      JObj [("parts", JArr broken_parts)])])]))
      empty_world))) = [JObj [("type", JStr "audio"); ("data", JStr "UklGRg==")]] /\
   fst (gemini_to_browser_frame quiet_env
      (Json (JObj [("serverContent", JObj [("modelTurn",
                      JObj [("parts", JArr broken_parts)])])]))
      empty_world) = Raise (KeyError "data")) /\
  length (client_frames (trace (snd (gemini_to_browser_frame deaf_client_env
      (Json (JObj [("serverContent", JObj [("modelTurn",
                      JObj [("parts", JArr [JObj [("inlineData", JObj [("data", JStr "a")])];
                                            JObj [("inlineData", JObj [("data", JStr "b")])];
                                            JObj [("inlineData", JObj [("data", JStr "c")])]])])])]))
      empty_world)))) = 1%nat /\
  client_frames (trace (snd (gemini_to_browser_frame quiet_env
      (Json (JObj [("toolCall", JObj []);
                   ("serverContent", JObj [("modelTurn",
                      JObj [("parts", JArr speech_parts)])])]))
      empty_world))) = [].
Proof. repeat split. Qed.

(* ===================================================================== *)
(** ** The order sink                                                     *)
(* ===================================================================== *)

Lemma tool_call_frame_goes_through env calls views w :
  Forall2 (call_is env) calls views ->
  (forall h, upstream_send_fault env h = None) ->
  fst (gemini_to_browser_frame env (Json (tool_call_frame calls)) w) = Ok tt.
Proof.
  intros Hviews Hsend.
  destruct (function_calls_run _ _ _ Hviews Hsend w) as (evs & Hok & _).
  unfold gemini_to_browser_frame, json_loads.
  rewrite (bind_ok _ _ w (tool_call_frame calls) w eq_refl).
  rewrite <- (tool_call_run env (tool_call_frame calls) _ calls w eq_refl eq_refl) in Hok.
  destruct (tool_call env (tool_call_frame calls) w) as [r w1] eqn:E.
  cbn in Hok. subst r. rewrite (bind_ok _ _ _ _ _ E). reflexivity.
Qed.

(** C6. [save_order] returns normally on every input and whatever the
    database does; when the commit raises, the exception is logged as a
    database error inside [save_order] and the table is left as it was; and
    a frame with a valid place_order call is then still processed to its
    end, so the inbound task goes on to the next frame. *)
Theorem persistence_failure_is_contained env item quantity price w :
  fst (save_order env item quantity price w) = Ok tt /\
  (forall e,
      commit_fault env (trace w) = Some e ->
      snd (save_order env item quantity price w) =
      appended w [DbCommit item quantity price; Log (LogDbError e)]) /\
  (forall fc call_id rest how,
      call_is env fc (PlaceOrder call_id item quantity price) ->
      (forall h, upstream_send_fault env h = None) ->
      fst (gemini_to_browser env
             {| frames := Json (tool_call_frame [fc]) :: rest; ending := how |} w) =
      Ok (Continue {| frames := rest; ending := how |})).
Proof.
  split; [| split].
  - now destruct (save_order_shape env item quantity price w) as (l & rows & -> & _).
  - intros e He. now rewrite save_order_eq, He.
  - intros fc call_id rest how Hfc Hsend.
    assert (Hok : fst (gemini_to_browser_frame env (Json (tool_call_frame [fc])) w) = Ok tt).
    { eapply tool_call_frame_goes_through; [| exact Hsend].
      constructor; [exact Hfc | constructor]. }
    unfold gemini_to_browser, turn, attempt, bind. cbn [frames ending].
    destruct (gemini_to_browser_frame env (Json (tool_call_frame [fc])) w) as [r w1].
    cbn in Hok. subst r. reflexivity.
Qed.

Lemma persistence_failure_example :
  snd (save_order broken_db_env (JStr "Biryani") 2 price_350 empty_world) =
    appended empty_world
      [DbCommit (JStr "Biryani") 2 price_350;
       Log (LogDbError (DatabaseError "disk I/O error"))] /\
  fst (gemini_to_browser broken_db_env
         {| frames := [Json (tool_call_frame [biryani_call])]; ending := Silent |}
         empty_world) =
    Ok (Continue {| frames := []; ending := Silent |}).
Proof.
  pose proof (persistence_failure_is_contained
                broken_db_env (JStr "Biryani") 2 price_350 empty_world) as (_ & H2 & H3).
  split.
  - apply H2. reflexivity.
  - apply (H3 biryani_call (JStr "call-1")).
    + cbn. do 3 eexists. repeat split.
    + reflexivity.
Defined.

Lemma in_int64_true z : - 2 ^ 63 <= z < 2 ^ 63 -> in_int64 z = true.
Proof.
  intros [Hlo Hhi]. unfold in_int64. apply andb_true_intro.
  split; [now apply Z.leb_le | now apply Z.ltb_lt].
Qed.




(* ===================================================================== *)
(** ** The order listing                                                  *)
(* ===================================================================== *)

Lemma insert_desc_perm o sorted : Permutation (insert_desc o sorted) (o :: sorted).
Proof.
  induction sorted as [| x rest IH]; cbn; [reflexivity |].
  destruct (created_at x <=? created_at o); [reflexivity |].
  rewrite IH. apply perm_swap.
Qed.

Lemma insert_desc_sorted o sorted :
  StronglySorted newer_or_equal sorted ->
  StronglySorted newer_or_equal (insert_desc o sorted).
Proof.
  induction 1 as [| x rest Hrest IH Hx]; cbn.
  - repeat constructor.
  - destruct (created_at x <=? created_at o) eqn:E.
    + apply Z.leb_le in E. constructor; [now constructor |].
      constructor; [exact E |].
      eapply Forall_impl; [| exact Hx]. unfold newer_or_equal. intros; lia.
    + apply Z.leb_gt in E. constructor; [exact IH |].
      eapply Permutation_Forall; [symmetry; apply insert_desc_perm |].
      constructor; [unfold newer_or_equal; lia | exact Hx].
Qed.

(** C9. [get_orders] returns every row of the table, each once, ordered by
    creation timestamp with the newest first. *)
Theorem get_orders_all_newest_first (db : Table) :
  Permutation (get_orders db) db /\
  StronglySorted newer_or_equal (get_orders db).
Proof.
  unfold get_orders, order_by_created_at_desc. induction db as [| o db [IHp IHs]]; cbn.
  - split; constructor.
  - split.
    + rewrite insert_desc_perm. now constructor.
    + now apply insert_desc_sorted.
Qed.

(* ===================================================================== *)
(** ** The session                                                        *)
(* ===================================================================== *)

Lemma client_closes_app t1 t2 :
  client_closes (t1 ++ t2) = (client_closes t1 + client_closes t2)%nat.
Proof. unfold client_closes. now rewrite filter_app, length_app. Qed.

Lemma load_menu_eq env w :
  load_menu env w =
  match menu_json env with
  | MenuPresent text => (Ok text, w)
  | MenuUnreadable e => (Ok menu_placeholder, appended w [Log (LogMenuError e)])
  | MenuAbsent => (Ok menu_placeholder, appended w [Log LogMenuMissing])
  end.
Proof. unfold load_menu. now destruct (menu_json env). Qed.

Lemma handshake_eq env w text w0 :
  load_menu env w = (Ok text, w0) ->
  handshake env w =
  match connect_fault env with
  | Some e => (Raise e, appended w0 [Connect])
  | None =>
      (match upstream_send_fault env (trace w0 ++ [Connect; Log LogConnected]) with
       | Some e => Raise e
       | None => Ok tt
       end,
       appended w0 [Connect; Log LogConnected; UpstreamSend (setup_frame text)])
  end.
Proof.
  intros Hmenu. unfold handshake. rewrite (bind_ok _ _ _ _ _ Hmenu).
  unfold connect, bind, emit, log, ws_send, history, appended; cbn.
  destruct (connect_fault env) as [e |]; cbn; [reflexivity |].
  rewrite <- !app_assoc. cbn.
  now destruct (upstream_send_fault env (trace w0 ++ [Connect; Log LogConnected])).
Qed.

Lemma load_menu_ok env w : exists text w0, load_menu env w = (Ok text, w0).
Proof. rewrite load_menu_eq. destruct (menu_json env); eauto. Qed.

(** [run] is its handshake followed by the relay or by the session handler. *)
Lemma run_unfold env schedule client upstream w :
  run env schedule client upstream w =
  match handshake env w with
  | (Ok _, w1) => leave_session (relay env schedule client upstream w1)
  | (Raise e, w1) => end_session env e w1
  end.
Proof.
  destruct (load_menu_ok env w) as (text & w0 & Hmenu).
  rewrite (handshake_eq _ _ _ _ Hmenu).
  unfold run. rewrite (bind_ok _ _ _ _ _ Hmenu).
  unfold end_session, try_except, async_with, attempt, connect, bind, emit, log, ws_send,
    history, appended, ret, raise; cbn.
  destruct (connect_fault env) as [e |]; cbn; [now rewrite <- !app_assoc |].
  rewrite <- !app_assoc. cbn.
  destruct (upstream_send_fault env (trace w0 ++ [Connect; Log LogConnected])) as [e |];
    cbn; [now rewrite <- !app_assoc |].
  destruct (relay env schedule client upstream _) as [[[|] | e] w2]; cbn;
    try reflexivity; now rewrite <- !app_assoc.
Qed.

Lemma handshake_performs env :
  performs not_a_close (fun _ => False) (handshake env).
Proof. unfold handshake, load_menu, connect, log, ws_send. performs_auto. Qed.

Lemma turn_returns body on_error s w :
  exists p, fst (turn body on_error s w) = Ok p.
Proof.
  unfold turn. destruct (frames s) as [| m rest].
  - destruct (ending s); cbn; eauto.
  - unfold bind, attempt. destruct (body m w) as [[[] | e] w1]; cbn; eauto.
Qed.

(** Like [asyncio.wait], the wait never raises what a task raised. *)
Lemma wait_first_completed_returns env schedule :
  forall client upstream w,
    exists first, fst (wait_first_completed env schedule client upstream w) = Ok first.
Proof.
  induction schedule as [| [|] later IH]; intros client upstream w; cbn.
  - eauto.
  - unfold bind, browser_to_gemini.
    destruct (turn_returns (browser_to_gemini_frame env) LogBrowserDisconnected client w)
      as (p & Hp).
    destruct (turn _ _ client w) as [r w1]; cbn in Hp; subst r.
    destruct p; cbn; eauto.
  - unfold bind, gemini_to_browser.
    destruct (turn_returns (gemini_to_browser_frame env) LogGeminiDisconnected upstream w)
      as (p & Hp).
    destruct (turn _ _ upstream w) as [r w1]; cbn in Hp; subst r.
    destruct p; cbn; eauto.
Qed.

Lemma relay_eq env schedule client upstream w :
  relay env schedule client upstream w =
  match wait_first_completed env schedule client upstream w with
  | (Ok (Some (done, _)), w1) => (Ok Returned, appended w1 [Cancel (other done)])
  | (Ok None, w1) => (Ok StillRelaying, w1)
  | (Raise e, w1) => (Raise e, w1)
  end.
Proof.
  unfold relay, bind.
  destruct (wait_first_completed env schedule client upstream w) as [[[[done r] |] | e] w1];
    reflexivity.
Qed.

(** C3, as the code has it. On every path [run] closes the client channel
    at most once. It closes it exactly once, and returns, when the handshake
    raises (connecting or sending the setup frame fails) and the session
    handler runs. When the relay was entered and the first task to complete
    ended normally, [run] returns without closing the client channel. *)
Theorem client_closed_at_most_once env schedule client upstream w :
  exists evs,
    trace (snd (run env schedule client upstream w)) = trace w ++ evs /\
    (client_closes evs <= 1)%nat /\
    (forall e,
        fst (handshake env w) = Raise e ->
        fst (run env schedule client upstream w) = Ok Returned /\
        client_closes evs = 1%nat) /\
    (forall w1 first,
        handshake env w = (Ok tt, w1) ->
        fst (wait_first_completed env schedule client upstream w1) =
          Ok (Some (first, Ok tt)) ->
        fst (run env schedule client upstream w) = Ok Returned /\
        client_closes evs = 0%nat).
Proof.
  rewrite run_unfold.
  destruct (handshake_performs env w) as (evs1 & rows1 & Ht1 & _ & HP1 & _).
  apply not_a_close_count in HP1.
  destruct (handshake env w) as [[[] | e] w1]; cbn [snd] in Ht1.
  - rewrite relay_eq.
    destruct (wait_first_completed_performs env schedule client upstream w1)
      as (evs2 & rows2 & Ht2 & _ & HP2 & _).
    apply not_a_close_count in HP2.
    destruct (wait_first_completed_returns env schedule client upstream w1) as (first & Hf).
    destruct (wait_first_completed env schedule client upstream w1) as [r w2] eqn:Ew.
    cbn [fst snd] in Hf, Ht2. subst r.
    destruct first as [[done r] |]; cbn [leave_session snd fst appended trace].
    + exists (evs1 ++ evs2 ++ [Cancel (other done); UpstreamClose]).
      rewrite Ht2, Ht1, <- !app_assoc. cbn [app].
      rewrite !client_closes_app, HP1, HP2. cbn.
      repeat split; auto; discriminate.
    + exists (evs1 ++ evs2).
      rewrite Ht2, Ht1, <- !app_assoc, !client_closes_app, HP1, HP2. cbn.
      split; [reflexivity |]. split; [lia |]. split; [discriminate |].
      intros w0 first [= <-]. rewrite Ew. discriminate.
  - unfold end_session. cbn [snd fst appended trace].
    eexists. rewrite Ht1, <- app_assoc. split; [reflexivity |].
    rewrite !client_closes_app, HP1.
    destruct (connect_fault env); cbn; repeat split; auto; discriminate.
Qed.

Lemma client_closed_when_upstream_unreachable :
  exists evs,
    trace (snd (run unreachable_env [] hangs_up hangs_up empty_world)) =
      trace empty_world ++ evs /\
    client_closes evs = 1%nat.
Proof.
  destruct (client_closed_at_most_once unreachable_env [] hangs_up hangs_up empty_world)
    as (evs & Ht & _ & Hraise & _).
  exists evs. split; [exact Ht |].
  apply (Hraise (TransportError "timed out during opening handshake")). reflexivity.
Defined.

(** C3 as stated fails: with the handshake done, a session in which the
    browser hangs up (the outbound task ends normally) returns without a
    single close of the client channel, and so does a session in which the
    outbound task ends by an error. *)
Lemma client_left_open_after_relay :
  fst (run quiet_env [Browser] hangs_up keeps_quiet empty_world) = Ok Returned /\
  client_closes (trace (snd (run quiet_env [Browser] hangs_up keeps_quiet empty_world))) =
    0%nat /\
  fst (run quiet_env [Browser] {| frames := [NotJson]; ending := Silent |} keeps_quiet
           empty_world) = Ok Returned /\
  client_closes (trace (snd (run quiet_env [Browser]
                               {| frames := [NotJson]; ending := Silent |} keeps_quiet
                               empty_world))) = 0%nat.
Proof. repeat split. Qed.

(** C8. When menu.json is absent or cannot be read, loading the menu
    returns the placeholder "Menu not available." and raises nothing; with
    the upstream reachable, the first frame sent is the setup frame, whose
    system instruction is the prompt with "Menu not available." in the
    place of the menu; and when that send succeeds the session goes on into
    the relay exactly as it does with a menu. *)
Theorem missing_menu_is_not_fatal env schedule client upstream w :
  menu_json env = MenuAbsent \/ (exists e, menu_json env = MenuUnreadable e) ->
  fst (load_menu env w) = Ok "Menu not available." /\
  (connect_fault env = None ->
   exists l rest,
     trace (snd (run env schedule client upstream w)) =
     trace w ++
       [Log l; Connect; Log LogConnected;
        UpstreamSend
          (JObj [("setup", JObj [
             ("model", JStr MODEL_ID);
             ("tools", TOOL_DEFINITIONS);
             ("generationConfig", JObj [
                ("responseModalities", JArr [JStr "AUDIO"]);
                ("speechConfig", JObj [("voiceConfig", JObj [
                   ("prebuiltVoiceConfig", JObj [("voiceName", JStr "Charon")])])])]);
             ("systemInstruction", JObj [
                ("parts", JArr [JObj [("text", JStr
                   (String.append prompt_head
                      (String.append "Menu not available." prompt_tail)))]])])])])]
       ++ rest) /\
  (connect_fault env = None ->
   (forall h, upstream_send_fault env h = None) ->
   exists l,
     run env schedule client upstream w =
     leave_session
       (relay env schedule client upstream
          (appended w
             [Log l; Connect; Log LogConnected;
              UpstreamSend
                (JObj [("setup", JObj [
                   ("model", JStr MODEL_ID);
                   ("tools", TOOL_DEFINITIONS);
                   ("generationConfig", JObj [
                      ("responseModalities", JArr [JStr "AUDIO"]);
                      ("speechConfig", JObj [("voiceConfig", JObj [
                         ("prebuiltVoiceConfig", JObj [("voiceName", JStr "Charon")])])])]);
                   ("systemInstruction", JObj [
                      ("parts", JArr [JObj [("text", JStr
                         (String.append prompt_head
                            (String.append "Menu not available." prompt_tail)))]])])])])]))).
Proof.
  intros Hmenu.
  assert (Hload : exists l, load_menu env w = (Ok menu_placeholder, appended w [Log l])).
  { rewrite load_menu_eq. destruct Hmenu as [-> | [e ->]]; eauto. }
  destruct Hload as (l & Hload).
  split; [now rewrite Hload | split].
  - intros Hconnect. exists l. rewrite run_unfold, (handshake_eq _ _ _ _ Hload), Hconnect.
    cbn [appended trace].
    destruct (upstream_send_fault env _) as [e |].
    + unfold end_session. rewrite Hconnect. cbn [appended trace snd app].
      rewrite <- !app_assoc. eexists. reflexivity.
    + match goal with |- context [relay env schedule client upstream ?w1] =>
        destruct (relay_performs env schedule client upstream w1)
          as (evs & rows & Ht & _);
        destruct (relay env schedule client upstream w1) as [[[|] | e] w2]
      end; cbn [leave_session appended trace snd] in *; rewrite Ht, <- !app_assoc;
        eexists; reflexivity.
  - intros Hconnect Hsend. exists l.
    rewrite run_unfold, (handshake_eq _ _ _ _ Hload), Hconnect, Hsend.
    unfold appended. cbn [trace orders]. now rewrite <- app_assoc.
Qed.

Lemma missing_menu_example :
  fst (load_menu quiet_env empty_world) = Ok "Menu not available." /\
  exists l rest,
    trace (snd (run quiet_env [Browser] hangs_up keeps_quiet empty_world)) =
    trace empty_world ++
      [Log l; Connect; Log LogConnected;
       UpstreamSend
         (JObj [("setup", JObj [
            ("model", JStr MODEL_ID);
            ("tools", TOOL_DEFINITIONS);
            ("generationConfig", JObj [
               ("responseModalities", JArr [JStr "AUDIO"]);
               ("speechConfig", JObj [("voiceConfig", JObj [
                  ("prebuiltVoiceConfig", JObj [("voiceName", JStr "Charon")])])])]);
            ("systemInstruction", JObj [
               ("parts", JArr [JObj [("text", JStr
                  (String.append prompt_head
                     (String.append "Menu not available." prompt_tail)))]])])])])]
      ++ rest.
Proof.
  destruct (missing_menu_is_not_fatal quiet_env [Browser] hangs_up keeps_quiet empty_world
              (or_introl eq_refl)) as (Hload & Hsetup & _).
  split; [exact Hload | exact (Hsetup eq_refl)].
Defined.

(* ===================================================================== *)
(** ** Further properties: how a session starts and ends                  *)
(* ===================================================================== *)

(** X1. [run] never raises: whatever the menu, the upstream service, the
    peers and the database do, it either returns or is still relaying; what
    a task or the handshake raised ends in a log line. *)
Theorem run_never_raises env schedule client upstream w :
  fst (run env schedule client upstream w) = Ok Returned \/
  fst (run env schedule client upstream w) = Ok StillRelaying.
Proof.
  rewrite run_unfold.
  destruct (handshake env w) as [[[] | e] w1]; [| now left].
  destruct (relay env schedule client upstream w1) as [[[|] | e] w2]; cbn; auto.
Qed.

(** X2. When the upstream service cannot be reached, the session ends at
    once: after the menu is loaded the only events are the connect, the
    session-ended log line and the close of the client channel; no frame is
    read or sent, the table is untouched and nothing is closed upstream. *)
Theorem unreachable_upstream_ends_session env schedule client upstream w e :
  connect_fault env = Some e ->
  run env schedule client upstream w =
    (Ok Returned,
     appended (snd (load_menu env w)) [Connect; Log (LogSessionEnded e); ClientClose]) /\
  orders (snd (run env schedule client upstream w)) = orders w.
Proof.
  intros Hconnect. destruct (load_menu_ok env w) as (text & w0 & Hmenu).
  rewrite run_unfold, (handshake_eq _ _ _ _ Hmenu), Hconnect, Hmenu.
  unfold end_session, appended. rewrite Hconnect. cbn. rewrite <- app_assoc. cbn.
  split; [reflexivity |].
  rewrite load_menu_eq in Hmenu.
  destruct (menu_json env); injection Hmenu as _ <-; reflexivity.
Qed.

Lemma unreachable_upstream_example :
  run unreachable_env [Browser; Gemini] hangs_up keeps_quiet empty_world =
    (Ok Returned,
     appended (snd (load_menu unreachable_env empty_world))
       [Connect;
        Log (LogSessionEnded (TransportError "timed out during opening handshake"));
        ClientClose]) /\
  orders (snd (run unreachable_env [Browser; Gemini] hangs_up keeps_quiet empty_world)) =
    orders empty_world.
Proof.
  exact (unreachable_upstream_ends_session unreachable_env [Browser; Gemini]
           hangs_up keeps_quiet empty_world _ eq_refl).
Defined.

(** X3. With the upstream reachable, the first thing a session puts on any
    socket is the setup frame, and the text of its system instruction is the
    prompt around the menu as read from disk, or around "Menu not
    available." when there is none: before it there are only log lines and
    the connect. *)
Theorem setup_frame_comes_first env schedule client upstream w :
  connect_fault env = None ->
  exists before after,
    trace (snd (run env schedule client upstream w)) =
      trace w ++ before ++
        UpstreamSend
          (JObj [("setup", JObj [
             ("model", JStr MODEL_ID);
             ("tools", TOOL_DEFINITIONS);
             ("generationConfig", JObj [
                ("responseModalities", JArr [JStr "AUDIO"]);
                ("speechConfig", JObj [("voiceConfig", JObj [
                   ("prebuiltVoiceConfig", JObj [("voiceName", JStr "Charon")])])])]);
             ("systemInstruction", JObj [
                ("parts", JArr [JObj [("text", JStr
                   (String.append prompt_head
                      (String.append (match menu_json env with
                             | MenuPresent text => text
                             | MenuUnreadable _ | MenuAbsent => "Menu not available."
                             end) prompt_tail)))]])])])])
        :: after /\
    Forall silent_event before.
Proof.
  intros Hconnect.
  change (exists before after,
             trace (snd (run env schedule client upstream w)) =
               trace w ++ before ++ UpstreamSend (setup_frame (menu_text_of env)) :: after /\
             Forall silent_event before).
  assert (Hload : exists l, load_menu env w = (Ok (menu_text_of env), appended w l) /\
                            Forall silent_event l).
  { rewrite load_menu_eq. unfold menu_text_of.
    destruct (menu_json env).
    - exists [Log LogMenuMissing]. split; [reflexivity | repeat constructor].
    - exists [Log (LogMenuError e)]. split; [reflexivity | repeat constructor].
    - exists []. split; [| constructor]. unfold appended. rewrite app_nil_r. now destruct w. }
  destruct Hload as (l & Hload & Hl).
  exists (l ++ [Connect; Log LogConnected]).
  rewrite run_unfold, (handshake_eq _ _ _ _ Hload), Hconnect.
  assert (Hbefore : Forall silent_event (l ++ [Connect; Log LogConnected])).
  { apply Forall_app. split; [exact Hl | repeat constructor]. }
  cbn [appended trace].
  destruct (upstream_send_fault env _) as [e |].
  - unfold end_session. rewrite Hconnect. cbn [appended trace snd app].
    eexists. split; [| exact Hbefore].
    rewrite <- !app_assoc. cbn [app]. reflexivity.
  - match goal with |- context [relay env schedule client upstream ?w1] =>
      destruct (relay_performs env schedule client upstream w1) as (evs & rows & Ht & _);
      destruct (relay env schedule client upstream w1) as [[[|] | e] w2]
    end; cbn [leave_session appended trace snd] in *; rewrite Ht; eexists;
      (split; [| exact Hbefore]); rewrite <- !app_assoc; cbn [app]; reflexivity.
Qed.

Lemma setup_frame_with_menu_example :
  exists before after,
    trace (snd (run menu_env [Browser] hangs_up keeps_quiet empty_world)) =
      trace empty_world ++ before ++
        UpstreamSend
          (JObj [("setup", JObj [
             ("model", JStr MODEL_ID);
             ("tools", TOOL_DEFINITIONS);
             ("generationConfig", JObj [
                ("responseModalities", JArr [JStr "AUDIO"]);
                ("speechConfig", JObj [("voiceConfig", JObj [
                   ("prebuiltVoiceConfig", JObj [("voiceName", JStr "Charon")])])])]);
             ("systemInstruction", JObj [
                ("parts", JArr [JObj [("text", JStr
                   (String.append prompt_head
                      (String.append "{}" prompt_tail)))]])])])])
        :: after /\
    Forall silent_event before.
Proof.
  exact (setup_frame_comes_first menu_env [Browser] hangs_up keeps_quiet empty_world
           eq_refl).
Defined.

(* ===================================================================== *)
(** ** Further properties: what goes over the sockets                     *)
(* ===================================================================== *)

Lemma upstream_closes_app t1 t2 :
  upstream_closes (t1 ++ t2) = (upstream_closes t1 + upstream_closes t2)%nat.
Proof. unfold upstream_closes. now rewrite filter_app, length_app. Qed.

Lemma relay_event_no_close evs :
  Forall relay_event evs -> upstream_closes evs = 0%nat.
Proof.
  induction 1 as [| e evs He _ IH]; [reflexivity |].
  destruct e; cbn in *; auto; contradiction.
Qed.

Lemma silent_event_no_close evs :
  Forall silent_event evs -> upstream_closes evs = 0%nat.
Proof.
  induction 1 as [| e evs He _ IH]; [reflexivity |].
  destruct e; cbn in *; auto; contradiction.
Qed.

Lemma save_order_inbound env item quantity price :
  performs inbound_event (fresh_row env) (save_order env item quantity price).
Proof.
  intros w.
  destruct (save_order_shape env item quantity price w) as (l & rows & -> & Hl & Hrows).
  exists [DbCommit item quantity price; Log l], rows. cbn.
  split; [reflexivity |]. split; [reflexivity |]. split.
  - constructor; [exact I |]. constructor; [| constructor].
    destruct Hl as [-> | [e ->]]; exact I.
  - eapply Forall_impl; [| exact Hrows]. intros o [Hs Ht]. split; [exact Hs | eauto].
Qed.

Lemma tool_response_inbound env Q call_id :
  performs inbound_event Q (ws_send env (tool_response call_id)).
Proof.
  intros w. rewrite ws_send_eq. exists [UpstreamSend (tool_response call_id)], [].
  cbn. rewrite app_nil_r. repeat split; auto. constructor; [| constructor].
  cbn. now eexists.
Qed.

Lemma audio_frame_inbound env Q payload :
  performs inbound_event Q (client_send_json env (audio_frame payload)).
Proof.
  intros w. rewrite client_send_json_eq. exists [ClientSend (audio_frame payload)], [].
  cbn. rewrite app_nil_r. repeat split; auto. constructor; [| constructor].
  cbn. now eexists.
Qed.

Lemma realtime_input_outbound env Q payload :
  performs outbound_event Q (ws_send env (realtime_input payload)).
Proof.
  intros w. rewrite ws_send_eq. exists [UpstreamSend (realtime_input payload)], [].
  cbn. rewrite app_nil_r. repeat split; auto. constructor; [| constructor].
  cbn. now eexists.
Qed.

#[global] Hint Resolve save_order_inbound tool_response_inbound audio_frame_inbound
  realtime_input_outbound : performs.

Lemma function_call_inbound env fc :
  performs inbound_event (fresh_row env) (function_call env fc).
Proof. unfold function_call. performs_auto. Qed.

Lemma model_part_inbound env part :
  performs inbound_event (fresh_row env) (model_part env part).
Proof. unfold model_part. performs_auto. Qed.

#[global] Hint Resolve function_call_inbound model_part_inbound : performs.

Lemma gemini_frame_inbound env msg :
  performs inbound_event (fresh_row env) (gemini_to_browser_frame env msg).
Proof.
  unfold gemini_to_browser_frame, json_loads, tool_call, server_content.
  performs_auto.
Qed.

Lemma browser_frame_outbound env msg :
  performs outbound_event (fresh_row env) (browser_to_gemini_frame env msg).
Proof. unfold browser_to_gemini_frame, json_loads. performs_auto. Qed.

Lemma turn_relay env body on_error s :
  (forall m, performs relay_event (fresh_row env) (body m)) ->
  (forall e, relay_event (Log (on_error e))) ->
  performs relay_event (fresh_row env) (turn body on_error s).
Proof.
  intros Hb Hlog. unfold turn, log. destruct (frames s) as [| m rest].
  - destruct (ending s); performs_auto. apply performs_emit, Hlog.
  - apply performs_bind; [apply performs_attempt, Hb |].
    intros [[] | e]; performs_auto. apply performs_emit, Hlog.
Qed.

Lemma wait_first_completed_relay env schedule :
  forall client upstream,
    performs relay_event (fresh_row env)
             (wait_first_completed env schedule client upstream).
Proof.
  induction schedule as [| [|] later IH]; intros client upstream; cbn.
  - apply performs_ret.
  - apply performs_bind.
    + apply turn_relay; [| intros e; exact I]. intros m.
      eapply performs_weaken; [| | apply browser_frame_outbound]; [| easy].
      intros [] H; cbn in *; auto; contradiction.
    + intros [rest | r |]; auto. apply performs_ret.
  - apply performs_bind.
    + apply turn_relay; [| intros e; exact I]. intros m.
      eapply performs_weaken; [| | apply gemini_frame_inbound]; [| easy].
      intros [[] | | | | | | |] H; cbn in *; auto; contradiction.
    + intros [rest | r |]; auto. apply performs_ret.
Qed.

Lemma load_menu_silent env w :
  exists l, load_menu env w = (Ok (menu_text_of env), appended w l) /\
            Forall silent_event l.
Proof.
  rewrite load_menu_eq. unfold menu_text_of. destruct (menu_json env).
  - exists [Log LogMenuMissing]. split; [reflexivity | repeat constructor].
  - exists [Log (LogMenuError e)]. split; [reflexivity | repeat constructor].
  - exists []. split; [| constructor]. unfold appended. rewrite app_nil_r. now destruct w.
Qed.

(** The three shapes of a session: the connect fails; the setup frame cannot
    be sent; the relay is entered. *)
Lemma run_trace env schedule client upstream w :
  exists l, Forall silent_event l /\
  ((exists e,
      connect_fault env = Some e /\
      run env schedule client upstream w =
        (Ok Returned, appended w (l ++ [Connect; Log (LogSessionEnded e); ClientClose]))) \/
   (exists e,
      connect_fault env = None /\
      run env schedule client upstream w =
        (Ok Returned,
         appended w (l ++ [Connect; Log LogConnected;
                           UpstreamSend (setup_frame (menu_text_of env));
                           UpstreamClose; Log (LogSessionEnded e); ClientClose]))) \/
   (exists evs rows tail o,
      connect_fault env = None /\
      Forall relay_event evs /\ Forall (fresh_row env) rows /\
      ((o = Returned /\ exists s, tail = [Cancel s; UpstreamClose]) \/
       (o = StillRelaying /\ tail = [])) /\
      run env schedule client upstream w =
        (Ok o,
         {| trace := trace w ++ l ++ [Connect; Log LogConnected;
                                      UpstreamSend (setup_frame (menu_text_of env))]
                             ++ evs ++ tail;
            orders := orders w ++ rows |}))).
Proof.
  destruct (load_menu_silent env w) as (l & Hload & Hl). exists l. split; [exact Hl |].
  rewrite run_unfold, (handshake_eq _ _ _ _ Hload).
  destruct (connect_fault env) as [e |] eqn:Hconnect.
  - left. exists e. split; [reflexivity |]. unfold end_session, appended.
    rewrite Hconnect. cbn. now rewrite <- !app_assoc.
  - right. cbn [appended trace orders].
    destruct (upstream_send_fault env _) as [e |].
    + left. exists e. split; [reflexivity |]. unfold end_session, appended.
      rewrite Hconnect. cbn. now rewrite <- !app_assoc.
    + right. rewrite relay_eq.
      match goal with |- context [wait_first_completed env schedule client upstream ?w1] =>
        destruct (wait_first_completed_relay env schedule client upstream w1)
          as (evs & rows & Ht & Ho & HP & HQ);
        destruct (wait_first_completed_returns env schedule client upstream w1)
          as (first & Hf);
        destruct (wait_first_completed env schedule client upstream w1) as [r w2]
      end.
      cbn [fst snd trace orders] in Hf, Ht, Ho. subst r.
      destruct w2 as [t2 o2]. cbn [trace orders] in Ht, Ho. subst t2 o2.
      destruct first as [[done r] |]; unfold leave_session, appended; cbn [trace orders].
      * exists evs, rows, [Cancel (other done); UpstreamClose], Returned.
        repeat split; auto; [left; eauto |].
        rewrite <- !app_assoc. reflexivity.
      * exists evs, rows, [], StillRelaying.
        repeat split; auto.
        now rewrite <- !app_assoc, app_nil_r.
Qed.

(** X4. The upstream connection is closed exactly once in every session
    that opened it and returned, whichever way the session ended, and never
    in a session whose connect failed or that is still relaying. *)
Theorem upstream_closed_once_when_opened env schedule client upstream w :
  exists evs,
    trace (snd (run env schedule client upstream w)) = trace w ++ evs /\
    upstream_closes evs =
      match connect_fault env, fst (run env schedule client upstream w) with
      | None, Ok Returned => 1%nat
      | _, _ => 0%nat
      end.
Proof.
  destruct (run_trace env schedule client upstream w)
    as (l & Hl & [(e & Hc & Hrun) | [(e & Hc & Hrun) | Hrelay]]).
  - rewrite Hrun, Hc. eexists. split; [reflexivity |].
    rewrite upstream_closes_app, (silent_event_no_close _ Hl). reflexivity.
  - rewrite Hrun, Hc. eexists. split; [reflexivity |].
    rewrite upstream_closes_app, (silent_event_no_close _ Hl). reflexivity.
  - destruct Hrelay as (evs & rows & tail & o & Hc & HP & _ & Htail & Hrun).
    rewrite Hrun, Hc. eexists. split; [reflexivity |].
    rewrite !upstream_closes_app, (silent_event_no_close _ Hl),
      (relay_event_no_close _ HP).
    destruct Htail as [(-> & s & ->) | (-> & ->)]; reflexivity.
Qed.

(** X5. A session only ever puts three kinds of frame on the upstream
    socket, the setup frame {"setup": {"model", "tools", "generationConfig",
    "systemInstruction": {"parts": [{"text": ...}]}}}, realtime-input
    envelopes {"realtimeInput": {"mediaChunks": [{"mimeType": "audio/pcm",
    "data": ...}]}} and place_order answers {"toolResponse":
    {"functionResponses": [{"name": "place_order", "id": ..., "response":
    {"result": {"status": "success"}}}]}}, and one kind on the client
    socket, audio frames {"type": "audio", "data": ...}. *)
Theorem session_speaks_the_protocol env schedule client upstream w :
  exists evs,
    trace (snd (run env schedule client upstream w)) = trace w ++ evs /\
    Forall session_event evs.
Proof.
  assert (Hsilent : forall l, Forall silent_event l -> Forall session_event l).
  { intros l. apply Forall_impl. intros []; cbn; auto; contradiction. }
  assert (Hrelayed : forall l, Forall relay_event l -> Forall session_event l).
  { intros l. apply Forall_impl. intros []; cbn; auto; contradiction. }
  assert (Hsetup : session_event (UpstreamSend (setup_frame (menu_text_of env)))).
  { left. eexists. reflexivity. }
  destruct (run_trace env schedule client upstream w)
    as (l & Hl & [(e & Hc & Hrun) | [(e & Hc & Hrun) | Hrelay]]).
  - rewrite Hrun. eexists. split; [reflexivity |].
    apply Forall_app. split; [auto |]. repeat constructor.
  - rewrite Hrun. eexists. split; [reflexivity |].
    apply Forall_app. split; [auto |].
    do 2 (constructor; [exact I |]). constructor; [exact Hsetup |]. repeat constructor.
  - destruct Hrelay as (evs & rows & tail & o & Hc & HP & _ & Htail & Hrun).
    rewrite Hrun. eexists. split; [reflexivity |].
    apply Forall_app. split; [auto |].
    apply Forall_app. split.
    { do 2 (constructor; [exact I |]). constructor; [exact Hsetup | constructor]. }
    apply Forall_app. split; [auto |].
    destruct Htail as [(_ & s & ->) | (_ & ->)]; repeat constructor.
Qed.

(** X6. The outbound task does one thing at most for a client frame: for a
    frame of kind "audio" with a payload p it calls the upstream send once
    with {"realtimeInput": {"mediaChunks": [{"mimeType": "audio/pcm",
    "data": p}]}}; for every other frame it leaves the sockets and the
    table alone. *)
Theorem outbound_frame_footprint env msg w :
  snd (browser_to_gemini_frame env msg w) = w \/
  exists payload,
    audio_is msg payload /\
    snd (browser_to_gemini_frame env msg w) =
      appended w
        [UpstreamSend
           (JObj [("realtimeInput", JObj [("mediaChunks", JArr [
              JObj [("mimeType", JStr "audio/pcm"); ("data", payload)]])])])].
Proof.
  destruct msg as [| value]; [now left |].
  destruct value; try (left; reflexivity).
  destruct (lookup "type" fields) as [kind |] eqn:Ek.
  - destruct (eq_str kind "audio") eqn:Eq.
    + apply eq_str_true in Eq. subst kind.
      destruct (lookup "audio" fields) as [payload |] eqn:Ea.
      * right. exists payload. split; [now exists fields |].
        now rewrite (browser_frame_audio _ _ _ _ Ek Ea), ws_send_eq.
      * left. now rewrite browser_frame_audio_missing.
    + apply eq_str_false in Eq. left.
      rewrite browser_frame_other_kind; [reflexivity | congruence].
  - left. rewrite browser_frame_other_kind; [reflexivity | congruence].
Qed.

(* ===================================================================== *)
(** ** Further properties: calls, saves and answers                       *)
(* ===================================================================== *)

(** What one entry of functionCalls can come to: nothing at all; a commit,
    its log line and the answer; or a commit and its log line, the answer
    missing because the call has no id. *)
Lemma function_call_cases env fc w :
  snd (function_call env fc w) = w \/
  (exists item quantity price l call_id,
      snd (function_call env fc w) =
        {| trace := trace w ++ [DbCommit item quantity price; Log l;
                                UpstreamSend (tool_response call_id)];
           orders := orders (snd (function_call env fc w)) |}) \/
  (exists item quantity price l,
      fst (function_call env fc w) = Raise (KeyError "id") /\
      snd (function_call env fc w) =
        {| trace := trace w ++ [DbCommit item quantity price; Log l];
           orders := orders (snd (function_call env fc w)) |}).
Proof.
  unfold function_call, bind, lift.
  destruct fc as [| | | | | | fields]; try (now left).
  destruct (getitem (JObj fields) "name") as [name | e]; [| now left].
  destruct (eq_str name "place_order"); [| now left].
  destruct (getitem (JObj fields) "args") as [args | e]; [| now left].
  destruct (getitem args "item") as [item | e]; [| now left].
  destruct (getitem args "quantity") as [q | e]; [| now left].
  destruct (Py.int (parsers env) q) as [quantity | e]; [| now left].
  destruct (getitem args "price") as [p | e]; [| now left].
  destruct (to_float (parsers env) p) as [price | e]; [| now left].
  right.
  destruct (save_order_shape env item quantity price w) as (l & rows & -> & _).
  destruct (getitem (JObj fields) "id") as [call_id | e'] eqn:Eid;
    [ left; rewrite ws_send_eq; unfold appended; cbn; rewrite <- app_assoc;
      do 5 eexists; reflexivity
    | right; do 4 eexists; cbn; split; [| reflexivity] ].
  cbn in Eid; destruct (lookup "id" fields); congruence.
Qed.

Lemma function_calls_balance env calls :
  forall w, exists evs,
    trace (snd (for_each calls (function_call env) w)) = trace w ++ evs /\
    (length (upstream_frames evs) <= length (saves evs) <=
       S (length (upstream_frames evs)))%nat /\
    (fst (for_each calls (function_call env) w) = Ok tt ->
     length (saves evs) = length (upstream_frames evs)).
Proof.
  induction calls as [| fc calls IH]; intros w.
  - exists []. cbn. rewrite app_nil_r. repeat split; auto.
  - cbn [for_each]. unfold bind.
    destruct (function_call_cases env fc w)
      as [H | [(item & q & p & l & call_id & H) | (item & q & p & l & Hr & H)]];
      destruct (function_call env fc w) as [[[] | e] w1]; cbn [fst snd] in *;
      try discriminate.
    + subst w1. apply IH.
    + subst w1. exists []. cbn. rewrite app_nil_r. repeat split; auto; try discriminate.
    + apply (f_equal trace) in H. cbn in H.
      destruct (IH w1) as (evs & Ht & Hb & Hok).
      exists ([DbCommit item q p; Log l; UpstreamSend (tool_response call_id)] ++ evs).
      rewrite Ht, H, <- app_assoc, saves_app, upstream_frames_app. cbn.
      repeat split; try lia. intros Hfst. specialize (Hok Hfst). lia.
    + apply (f_equal trace) in H. cbn in H.
      exists [DbCommit item q p; Log l; UpstreamSend (tool_response call_id)].
      cbn. repeat split; auto; try discriminate.
    + apply (f_equal trace) in H. cbn in H.
      exists [DbCommit item q p; Log l]. cbn. repeat split; auto; try discriminate.
Qed.

Lemma tool_call_balance env response w :
  exists evs,
    trace (snd (tool_call env response w)) = trace w ++ evs /\
    (length (upstream_frames evs) <= length (saves evs) <=
       S (length (upstream_frames evs)))%nat /\
    (fst (tool_call env response w) = Ok tt ->
     length (saves evs) = length (upstream_frames evs)).
Proof.
  assert (Hnone : forall (r : result unit),
             exists evs,
               trace w = trace w ++ evs /\
               (length (upstream_frames evs) <= length (saves evs) <=
                  S (length (upstream_frames evs)))%nat /\
               (r = Ok tt -> length (saves evs) = length (upstream_frames evs))).
  { intros r. exists []. cbn. rewrite app_nil_r. repeat split; auto. }
  unfold tool_call, bind, lift.
  destruct (contains "toolCall" response) as [[|] | e]; try apply Hnone.
  destruct (getitem response "toolCall") as [call | e]; try apply Hnone.
  destruct (getitem call "functionCalls") as [calls | e]; try apply Hnone.
  destruct (iter calls) as [items | e]; try apply Hnone.
  apply function_calls_balance.
Qed.

(** X7. Whatever frame the upstream service sends, the inbound task sends
    a place_order answer only after the commit of that order was attempted:
    the answers never outnumber the commits, the commits are ahead by one at
    most, and when the frame is processed to its end there are as many
    answers as commits. *)
Theorem answers_follow_commits env msg w :
  exists evs,
    trace (snd (gemini_to_browser_frame env msg w)) = trace w ++ evs /\
    (length (upstream_frames evs) <= length (saves evs) <=
       S (length (upstream_frames evs)))%nat /\
    (fst (gemini_to_browser_frame env msg w) = Ok tt ->
     length (saves evs) = length (upstream_frames evs)).
Proof.
  unfold gemini_to_browser_frame, json_loads. destruct msg as [| response].
  - exists []. cbn. rewrite app_nil_r. repeat split; auto; try discriminate.
  - rewrite (bind_ok _ _ w response w eq_refl). unfold bind.
    destruct (tool_call_balance env response w) as (evs & Ht & Hb & Hok).
    destruct (tool_call env response w) as [[[] | e] w1]; cbn [fst snd] in *.
    + destruct (server_content_performs env response w1)
        as (evs2 & rows & Ht2 & _ & HP & _).
      destruct (to_client_only _ HP) as (Hs2 & Hu2 & _).
      exists (evs ++ evs2).
      rewrite Ht2, Ht, <- app_assoc, saves_app, upstream_frames_app, Hs2, Hu2, !app_nil_r.
      specialize (Hok eq_refl). repeat split; auto; lia.
    + exists evs. repeat split; auto; try lia; try discriminate.
Qed.

(** X8. An order is committed only for a call named place_order whose
    arguments item, quantity and price are all present and whose quantity
    and price convert with int() and float(); the commit carries exactly
    those values. Any other entry of functionCalls leaves the sockets and the
    table as they were, whether it is skipped or ends the task. *)
Theorem commit_only_with_valid_arguments env fc w :
  snd (function_call env fc w) = w \/
  exists args q p item quantity price rest,
    getitem fc "name" = Ok (JStr "place_order") /\
    getitem fc "args" = Ok args /\
    getitem args "item" = Ok item /\
    getitem args "quantity" = Ok q /\ Py.int (parsers env) q = Ok quantity /\
    getitem args "price" = Ok p /\ to_float (parsers env) p = Ok price /\
    trace (snd (function_call env fc w)) =
      trace w ++ DbCommit item quantity price :: rest.
Proof.
  unfold function_call, bind, lift.
  destruct (getitem fc "name") as [name | e] eqn:En; [| now left].
  destruct (eq_str name "place_order") eqn:Ename; [| now left].
  apply eq_str_true in Ename. subst name.
  destruct (getitem fc "args") as [args | e] eqn:Ea; [| now left].
  destruct (getitem args "item") as [item | e] eqn:Ei; [| now left].
  destruct (getitem args "quantity") as [q | e] eqn:Eq; [| now left].
  destruct (Py.int (parsers env) q) as [quantity | e] eqn:Eqi; [| now left].
  destruct (getitem args "price") as [p | e] eqn:Ep; [| now left].
  destruct (to_float (parsers env) p) as [price | e] eqn:Epf; [| now left].
  right. exists args, q, p, item, quantity, price.
  destruct (save_order_shape env item quantity price w) as (l & rows & -> & _).
  destruct (getitem fc "id") as [call_id | e']; try rewrite ws_send_eq;
    eexists; do 7 (split; [first [assumption | reflexivity] |]);
    unfold appended; cbn; try rewrite <- app_assoc; reflexivity.
Qed.

(** X9. A place_order call with valid arguments but no id is committed and
    logged like any other and then ends the inbound task with KeyError
    "id": the order is in the table when the commit succeeds, and no answer
    goes upstream. *)
Theorem order_without_id_saved_unanswered
        env fields args q p item quantity price w :
  lookup "name" fields = Some (JStr "place_order") ->
  lookup "args" fields = Some args ->
  getitem args "item" = Ok item ->
  getitem args "quantity" = Ok q -> Py.int (parsers env) q = Ok quantity ->
  getitem args "price" = Ok p -> to_float (parsers env) p = Ok price ->
  lookup "id" fields = None ->
  function_call env (JObj fields) w =
    (Raise (KeyError "id"), snd (save_order env item quantity price w)) /\
  upstream_frames (trace (snd (function_call env (JObj fields) w))) =
    upstream_frames (trace w).
Proof.
  intros Hn Ha Hi Hq Hqi Hp Hpf Hid.
  assert (Hcall : function_call env (JObj fields) w =
                  (Raise (KeyError "id"), snd (save_order env item quantity price w))).
  { unfold function_call, bind, lift, getitem at 1 2. rewrite Hn. cbn [eq_str String.eqb
      Ascii.eqb Bool.eqb]. rewrite Ha, Hi, Hq, Hqi, Hp, Hpf.
    destruct (save_order_shape env item quantity price w) as (l & rows & -> & _).
    unfold getitem. now rewrite Hid. }
  split; [exact Hcall |]. rewrite Hcall.
  destruct (save_order_shape env item quantity price w) as (l & rows & -> & _).
  cbn. rewrite upstream_frames_app. cbn. now rewrite app_nil_r.
Qed.

Lemma order_without_id_example :
  function_call quiet_env anonymous_call empty_world =
    (Raise (KeyError "id"),
     snd (save_order quiet_env (JStr "Biryani") 2 price_350 empty_world)) /\
  upstream_frames (trace (snd (function_call quiet_env anonymous_call empty_world))) =
    upstream_frames (trace empty_world).
Proof.
  exact (order_without_id_saved_unanswered quiet_env
           [("name", JStr "place_order");
            ("args", JObj [("item", JStr "Biryani"); ("quantity", JInt 2);
                           ("price", JFloat price_350)])]
           (JObj [("item", JStr "Biryani"); ("quantity", JInt 2);
                  ("price", JFloat price_350)])
           (JInt 2) (JFloat price_350) (JStr "Biryani") 2 price_350 empty_world
           eq_refl eq_refl eq_refl eq_refl eq_refl eq_refl eq_refl eq_refl).
Defined.

(** X10. An upstream JSON object without a toolCall key is ignored, the
    task going on, when it has no serverContent key either (a setupComplete
    message, say), or when its serverContent has no modelTurn, or when its
    modelTurn has no parts: the defaults of the two get calls stand in. *)
Theorem frames_without_calls_or_parts_ignored env fields w :
  lookup "toolCall" fields = None ->
  lookup "serverContent" fields = None \/
  (exists content,
      lookup "serverContent" fields = Some (JObj content) /\
      (lookup "modelTurn" content = None \/
       exists model_turn,
         lookup "modelTurn" content = Some (JObj model_turn) /\
         lookup "parts" model_turn = None)) ->
  gemini_to_browser_frame env (Json (JObj fields)) w = (Ok tt, w).
Proof.
  intros Htool Hcontent.
  unfold gemini_to_browser_frame, json_loads, tool_call, server_content, bind, lift, ret,
    contains, getitem, Py.get.
  rewrite Htool.
  destruct Hcontent as [-> | (content & -> & [-> | (model_turn & -> & ->)])];
    reflexivity.
Qed.

Lemma setup_complete_ignored_example :
  gemini_to_browser_frame quiet_env (Json (JObj [("setupComplete", JObj [])]))
                          empty_world = (Ok tt, empty_world).
Proof.
  exact (frames_without_calls_or_parts_ignored quiet_env
           [("setupComplete", JObj [])] empty_world eq_refl (or_introl eq_refl)).
Defined.

(* ===================================================================== *)
(** ** Further properties: order of forwarding, peers going away          *)
(* ===================================================================== *)

(** X11. While the upstream side is quiet and upstream sends succeed, the
    outbound task forwards the client's audio frames one per turn, each
    exactly once and in the order received, and nothing else happens: after
    n turns the first n payloads have gone upstream, each p as
    {"realtimeInput": {"mediaChunks": [{"mimeType": "audio/pcm", "data":
    p}]}}, and both tasks are still running. *)
Theorem audio_forwarded_in_order env schedule :
  forall msgs payloads how w,
    Forall2 audio_is msgs payloads ->
    (forall h, upstream_send_fault env h = None) ->
    (browser_turns schedule <= length msgs)%nat ->
    wait_first_completed env schedule {| frames := msgs; ending := how |} keeps_quiet w =
      (Ok None,
       appended w
         (map UpstreamSend
            (map (fun payload =>
                   JObj [("realtimeInput", JObj [("mediaChunks", JArr [
                      JObj [("mimeType", JStr "audio/pcm"); ("data", payload)]])])])
                 (firstn (browser_turns schedule) payloads)))).
Proof.
  induction schedule as [| [|] later IH]; intros msgs payloads how w Hmsgs Hsend Hlen.
  - unfold appended. cbn. rewrite app_nil_r. now destruct w.
  - cbn in Hlen. destruct Hmsgs as [| m p ms ps (fields & -> & Hk & Ha) Hrest];
      [cbn in Hlen; lia |].
    cbn [wait_first_completed]. unfold browser_to_gemini, turn, attempt, bind.
    cbn [frames ending].
    rewrite (browser_frame_audio _ _ _ _ Hk Ha), ws_send_eq, Hsend.
    unfold ret. cbv beta iota.
    rewrite (IH ms ps how _ Hrest Hsend)
      by (unfold browser_turns in *; cbn in Hlen; lia).
    unfold appended, browser_turns. cbn [trace orders filter length firstn map].
    now rewrite <- app_assoc.
  - cbn [wait_first_completed]. unfold gemini_to_browser, turn, bind. cbn.
    now apply IH.
Qed.

Lemma audio_forwarded_in_order_example :
  wait_first_completed quiet_env [Browser; Gemini; Browser]
    {| frames := [Json (JObj [("type", JStr "audio"); ("audio", JStr "AAA=")]);
                  Json (JObj [("audio", JStr "BBB="); ("type", JStr "audio")])];
       ending := Silent |}
    keeps_quiet empty_world =
  (Ok None,
   appended empty_world
     (map UpstreamSend
        (map (fun payload =>
               JObj [("realtimeInput", JObj [("mediaChunks", JArr [
                  JObj [("mimeType", JStr "audio/pcm"); ("data", payload)]])])])
             (firstn (browser_turns [Browser; Gemini; Browser])
                     [JStr "AAA="; JStr "BBB="])))).
Proof.
  apply audio_forwarded_in_order.
  - repeat constructor; eexists; repeat split.
  - reflexivity.
  - cbn. lia.
Defined.

(** X12. Once the handshake is done, a session whose next scheduled task
    finds its socket finished returns at once: when the iteration just ends
    (the browser disconnected, the upstream closed normally) the other task
    is cancelled and the upstream connection closed with nothing logged;
    when it ends by an exception that exception is logged first. Either way
    the client channel is not closed by [run]. *)
Theorem peer_gone_ends_session env s later client upstream w w1 :
  handshake env w = (Ok tt, w1) ->
  frames (match s with Browser => client | Gemini => upstream end) = [] ->
  (ending (match s with Browser => client | Gemini => upstream end) = Closed ->
   run env (s :: later) client upstream w =
     (Ok Returned, appended w1 [Cancel (other s); UpstreamClose])) /\
  (forall e,
      ending (match s with Browser => client | Gemini => upstream end) = Broken e ->
      run env (s :: later) client upstream w =
        (Ok Returned,
         appended w1 [Log (disconnected s e); Cancel (other s); UpstreamClose])).
Proof.
  intros Hhs Hframes.
  split; [intros Hend | intros e Hend]; rewrite run_unfold, Hhs, relay_eq;
    destruct s; cbn [wait_first_completed];
    unfold browser_to_gemini, gemini_to_browser, turn, bind, log, emit, ret;
    rewrite Hframes, Hend; unfold leave_session, appended; cbn;
    now rewrite <- ?app_assoc.
Qed.

Lemma browser_disconnect_example :
  run quiet_env [Browser] hangs_up keeps_quiet empty_world =
    (Ok Returned,
     appended (snd (handshake quiet_env empty_world)) [Cancel Gemini; UpstreamClose]).
Proof.
  exact (proj1 (peer_gone_ends_session quiet_env Browser [] hangs_up keeps_quiet
                  empty_world (snd (handshake quiet_env empty_world))
                  eq_refl eq_refl) eq_refl).
Defined.

(* ===================================================================== *)
(** ** Further properties: saving and listing together                    *)
(* ===================================================================== *)

Lemma newest_stays_first (row : Order) (t acc : list Order) :
  (forall o, In o t -> created_at o < created_at row) ->
  fold_right insert_desc (row :: acc) t = row :: fold_right insert_desc acc t.
Proof.
  induction t as [| x t IH]; intros Hnew; cbn; [reflexivity |].
  rewrite IH by (intros o Ho; apply Hnew; now right). cbn.
  assert (Hx : created_at x < created_at row) by (apply Hnew; now left).
  destruct (created_at row <=? created_at x) eqn:E; [apply Z.leb_le in E; lia |].
  reflexivity.
Qed.

Lemma oldest_goes_last (o : Order) (l : list Order) :
  Forall (older o) l -> insert_desc o l = l ++ [o].
Proof.
  induction 1 as [| x l Hx _ IH]; cbn; [reflexivity |].
  unfold older in Hx.
  destruct (created_at x <=? created_at o) eqn:E; [apply Z.leb_le in E; lia |].
  now rewrite IH.
Qed.

(** X13. An order saved at a time later than every order in the table is
    the first one [get_orders] returns afterwards, with the next key, the
    item as the TEXT column stores it, the quantity passed, the price as the
    REAL column stores it (NaN as NULL, a zero of either sign as 0.0, any
    other number as passed), status "pending" and that time; the rest of the
    listing is what it was before. *)
Theorem saved_order_listed_first env item stored_item quantity price w :
  commit_fault env (trace w) = None ->
  bind_text (real_as_text env) item = Ok stored_item ->
  - 2 ^ 63 <= quantity < 2 ^ 63 ->
  (forall o, In o (orders w) -> created_at o < now env (trace w)) ->
  get_orders (orders (snd (save_order env item quantity price w))) =
    {| id := next_id (orders w);
       item := stored_item;
       quantity := quantity;
       price := match price with
                | S754_nan => None
                | S754_zero _ => Some (S754_zero false)
                | _ => Some price
                end;
       status := "pending";
       created_at := now env (trace w) |}
    :: get_orders (orders w).
Proof.
  intros Hcommit Hitem Hquantity Hnew. rewrite save_order_eq, Hcommit.
  unfold insert, bind_integer. rewrite Hitem, (in_int64_true _ Hquantity).
  unfold get_orders, order_by_created_at_desc. cbn [snd orders].
  rewrite fold_right_app. cbn [fold_right insert_desc].
  rewrite newest_stays_first by exact Hnew. now destruct price.
Qed.

Lemma saved_order_listed_first_example :
  get_orders (orders (snd (save_order quiet_env (JStr "Biryani") 2 price_350
                                      empty_world))) =
    {| id := next_id (orders empty_world); item := Some "Biryani"; quantity := 2;
       price := Some price_350; status := "pending";
       created_at := now quiet_env (trace empty_world) |}
    :: get_orders (orders empty_world).
Proof.
  apply (saved_order_listed_first quiet_env (JStr "Biryani") (Some "Biryani") 2
           price_350 empty_world); [reflexivity | reflexivity | lia |].
  intros o [].
Defined.

(** X14. For a table whose rows were inserted at strictly increasing times
    [get_orders] returns the rows in the reverse of their insertion order. *)
Theorem chronological_table_listed_backwards (db : Table) :
  StronglySorted older db -> get_orders db = rev db.
Proof.
  unfold get_orders, order_by_created_at_desc.
  induction 1 as [| o db Hdb IH Ho]; cbn; [reflexivity |].
  rewrite IH. apply oldest_goes_last. now apply Forall_rev.
Qed.

Lemma chronological_table_example :
  get_orders (orders (snd (gemini_to_browser_frame quiet_env
                             (Json (tool_call_frame [biryani_call; biryani_call]))
                             empty_world))) =
  rev (orders (snd (gemini_to_browser_frame quiet_env
                      (Json (tool_call_frame [biryani_call; biryani_call]))
                      empty_world))).
Proof.
  apply chronological_table_listed_backwards.
  repeat constructor.
Defined.

(* ===================================================================== *)
(** ** Further properties: playback order, frames that are not objects    *)
(* ===================================================================== *)

Lemma speech_frame_run env msg carried w :
  speech_is msg carried ->
  (forall h, client_send_fault env h = None) ->
  gemini_to_browser_frame env msg w =
    (Ok tt, appended w (map ClientSend (map audio_frame (carried_payloads carried)))).
Proof.
  intros (response & content & model_turn & parts & -> & Hno & Hc & Ht & Hp & Hparts) Hsend.
  unfold gemini_to_browser_frame, json_loads. rewrite (bind_ok _ _ w response w eq_refl).
  assert (Htool : tool_call env response w = (Ok tt, w)).
  { unfold tool_call. now rewrite (lift_eq _ _ _ _ Hno). }
  rewrite (bind_ok _ _ _ _ _ Htool), (server_content_run _ _ _ _ _ _ Hc Ht Hp).
  now apply model_parts_run.
Qed.

(** X15. While the browser side is quiet and client sends succeed, the
    inbound task plays the upstream audio back in the order it arrived, frame
    after frame and part after part: after n turns the browser has been sent
    the payloads of the first n server-content frames, each p as {"type":
    "audio", "data": p}, and nothing else has happened. *)
Theorem playback_in_order env schedule :
  forall msgs carried how w,
    Forall2 speech_is msgs carried ->
    (forall h, client_send_fault env h = None) ->
    (gemini_turns schedule <= length msgs)%nat ->
    wait_first_completed env schedule keeps_quiet {| frames := msgs; ending := how |} w =
      (Ok None,
       appended w
         (map ClientSend
            (map (fun payload => JObj [("type", JStr "audio"); ("data", payload)])
               (flat_map carried_payloads (firstn (gemini_turns schedule) carried))))).
Proof.
  induction schedule as [| [|] later IH]; intros msgs carried how w Hmsgs Hsend Hlen.
  - unfold appended. cbn. rewrite app_nil_r. now destruct w.
  - cbn [wait_first_completed]. unfold browser_to_gemini, turn, bind. cbn.
    now apply IH.
  - destruct Hmsgs as [| m c ms cs Hm Hrest]; [cbn in Hlen; lia |].
    cbn [wait_first_completed]. unfold gemini_to_browser, turn, attempt, bind.
    cbn [frames ending].
    rewrite (speech_frame_run _ _ _ _ Hm Hsend). unfold ret. cbv beta iota.
    rewrite (IH ms cs how _ Hrest Hsend)
      by (unfold gemini_turns in *; cbn in Hlen; lia).
    unfold appended, gemini_turns. cbn [trace orders filter length firstn flat_map].
    now rewrite <- app_assoc, !map_app.
Qed.

Lemma playback_in_order_example :
  wait_first_completed quiet_env [Gemini; Browser; Gemini] keeps_quiet
    {| frames := [Json speech_frame; Json speech_frame]; ending := Silent |}
    empty_world =
  (Ok None,
   appended empty_world
     (map ClientSend
        (map (fun payload => JObj [("type", JStr "audio"); ("data", payload)])
           (flat_map carried_payloads
              (firstn (gemini_turns [Gemini; Browser; Gemini])
                      [[Some (JStr "UklGRg=="); None; Some (JStr "AAA=")];
                       [Some (JStr "UklGRg=="); None; Some (JStr "AAA=")]]))))).
Proof.
  assert (Hspeech : speech_is (Json speech_frame)
                      [Some (JStr "UklGRg=="); None; Some (JStr "AAA=")]).
  { exists speech_frame, (JObj [("modelTurn", JObj [("parts", JArr speech_parts)])]),
      (JObj [("parts", JArr speech_parts)]), speech_parts.
    repeat split. repeat constructor; cbn; eexists; split; reflexivity. }
  apply playback_in_order.
  - repeat constructor; exact Hspeech.
  - reflexivity.
  - cbn. lia.
Defined.

(** X16. An upstream frame that is valid JSON but not an object never
    causes a send or a commit. A number, a boolean or null ends the inbound
    task (the [in] test raises); a list or a string is skipped, the task
    going on, unless it holds "toolCall" or "serverContent" (as an item, as
    a substring), in which case the subscript that follows raises. *)
Theorem non_object_upstream_frame env value w :
  (forall fields, value <> JObj fields) ->
  snd (gemini_to_browser_frame env (Json value) w) = w /\
  (fst (gemini_to_browser_frame env (Json value) w) = Ok tt <->
   contains "toolCall" value = Ok false /\ contains "serverContent" value = Ok false).
Proof.
  intros Hvalue.
  unfold gemini_to_browser_frame, json_loads, tool_call, server_content, bind, lift, ret,
    raise.
  destruct value; try (now destruct (Hvalue fields));
    try (cbn; split; [reflexivity | split; [discriminate | intros [? ?]; discriminate]]).
  - cbn [contains getitem].
    destruct (is_substring "toolCall" s); cbn;
      [split; [reflexivity | split; [discriminate | intros [? ?]; discriminate]] |].
    destruct (is_substring "serverContent" s); cbn;
      (split; [reflexivity | split; [try discriminate; auto | intros [? ?]; congruence]]).
  - cbn [contains getitem].
    destruct (existsb (fun v => eq_str v "toolCall") items); cbn;
      [split; [reflexivity | split; [discriminate | intros [? ?]; discriminate]] |].
    destruct (existsb (fun v => eq_str v "serverContent") items); cbn;
      (split; [reflexivity | split; [try discriminate; auto | intros [? ?]; congruence]]).
Qed.

Lemma non_object_upstream_frame_example :
  snd (gemini_to_browser_frame quiet_env (Json (JArr [])) empty_world) = empty_world /\
  (fst (gemini_to_browser_frame quiet_env (Json (JArr [])) empty_world) = Ok tt <->
   contains "toolCall" (JArr []) = Ok false /\
   contains "serverContent" (JArr []) = Ok false).
Proof.
  apply non_object_upstream_frame. discriminate.
Defined.
